(** * gitignore picker: the matcher, the selection loop and the path reducer

    A shallow embedding of [src/gitignore/ignore.py]:
    - [fuzzy_search]  (the Matcher),
    - [cli]           (the Selection Loop, as a step function over key codes),
    - [find_common_prefix_and_strip_paths] (the Path Reducer),
    together with the fragments of Python's [str], [re] and [pathlib] they
    rest on.

    Python strings are sequences of code points.  A [str] here is a list of
    [ascii] values read as the code points U+0000..U+00FF.  The loop only
    ever appends key codes 32..126 to the query, and the character tables
    below ([isspace], [tolower], the upper-casing of [str_upper]) follow
    CPython on the whole of that range. *)

From Stdlib Require Import ZArith NArith Ascii String Lia.
From stdpp Require Import base option list strings.

Local Open Scope char_scope.

Abbreviation str := (list ascii).

(** String literals. *)
Definition lit (s : string) : str := list_ascii_of_string s.

(** ** Characters *)

Module Char.

Definition code (c : ascii) : N := N_of_ascii c.
Definition chr (n : N) : ascii := ascii_of_N n.

Definition LF : ascii := "010".

(** [str.isspace] on one character, also the class [\s] of [re] on [str]
    patterns: TAB, LF, VT, FF, CR, U+001C..U+001F, SPACE, U+0085, U+00A0. *)
Definition isspace (c : ascii) : bool :=
  let n := code c in
  ((9 <=? n) && (n <=? 13) || (28 <=? n) && (n <=? 32)
   || (n =? 133) || (n =? 160))%N.

(** Capital letters of the range: A..Z and U+00C0..U+00DE without the
    multiplication sign U+00D7. *)
Definition isupper (c : ascii) : bool :=
  let n := code c in
  ((65 <=? n) && (n <=? 90)
   || (192 <=? n) && (n <=? 222) && negb (n =? 215))%N.

(** Small letters whose capital is again one character of the range:
    a..z and U+00E0..U+00FE without the division sign U+00F7. *)
Definition islower_simple (c : ascii) : bool :=
  let n := code c in
  ((97 <=? n) && (n <=? 122)
   || (224 <=? n) && (n <=? 254) && negb (n =? 247))%N.

(** The lower-case mapping, used by [str.lower] and by the regular
    expression engine under [re.IGNORECASE]. *)
Definition tolower (c : ascii) : ascii :=
  if isupper c then chr (code c + 32) else c.

(** Code points at most 127. *)
Definition is_ascii (c : ascii) : bool := (code c <? 128)%N.

(** ASCII letters and digits. *)
Definition is_ascii_alnum (c : ascii) : bool :=
  let n := code c in
  ((48 <=? n) && (n <=? 57) || (65 <=? n) && (n <=? 90)
   || (97 <=? n) && (n <=? 122))%N.

End Char.

(** ** The pieces of [str] the program uses *)

(** [sep.join(parts)] *)
Fixpoint join (sep : str) (parts : list str) : str :=
  match parts with
  | [] => []
  | [p] => p
  | p :: rest => p ++ sep ++ join sep rest
  end.

(** [s.lstrip()] *)
Fixpoint lstrip (s : str) : str :=
  match s with
  | [] => []
  | c :: s' => if Char.isspace c then lstrip s' else s
  end.

(** [s.strip()]: white space removed at both ends. *)
Definition strip (s : str) : str := rev (lstrip (rev (lstrip s))).

(** [s.lower()]: no character of the range has a lower-case form longer
    than one character. *)
Definition str_lower (s : str) : str := map Char.tolower s.

(** [s.upper()] on one character.  Python uses the full case mapping: the
    sharp s U+00DF becomes the two letters SS.  The capitals of the micro
    sign U+00B5 and of U+00FF lie above U+00FF, outside the modelled code
    points: [None]. *)
Definition upper_char (c : ascii) : option str :=
  let n := Char.code c in
  if Char.islower_simple c then Some [Char.chr (n - 32)]
  else if (n =? 223)%N then Some (lit "SS")
  else if ((n =? 181) || (n =? 255))%N then None
  else Some [c].

(** [s.upper()] *)
Fixpoint str_upper (s : str) : option str :=
  match s with
  | [] => Some []
  | c :: s' =>
      u ← upper_char c;
      r ← str_upper s';
      Some (u ++ r)
  end.

(** ** The fragment of [re] the matcher builds *)

Module Re.

(** [re.escape] escapes exactly these characters (Python 3.7 and later;
    [Path.is_relative_to] makes the program need 3.9). *)
Definition special_chars : str :=
  lit "()[]{}?*+-|^$\.&~# " ++ ["009"; "010"; "013"; "011"; "012"].

Definition is_special (c : ascii) : bool :=
  existsb (Ascii.eqb c) special_chars.

(** [re.escape(c)] for a one-character string [c]. *)
Definition escape (c : ascii) : str :=
  if is_special c then ["\"; c] else [c].

(** Characters with a meaning of their own in a pattern
    ([SPECIAL_CHARS] of the parser). *)
Definition syntax_chars : str := lit ".\[{()*+?^$|".

Definition is_syntax (c : ascii) : bool :=
  existsb (Ascii.eqb c) syntax_chars.

(** Compiled patterns: a sequence of literal characters and [.*]. *)
Inductive tok : Type :=
| Lit (c : ascii)
| DotStar.

Definition pattern : Type := list tok.

(** [re.compile(regex, re.IGNORECASE)] on the fragment: a literal
    character, a backslash before a character that is no ASCII letter or
    digit (the character itself), and [.*].  [None] stands for
    [re.error] and for the syntax outside the fragment. *)
Fixpoint compile (regex : str) : option pattern :=
  match regex with
  | [] => Some []
  | c :: rest =>
      if Ascii.eqb c "\" then
        match rest with
        | e :: rest' =>
            if Char.is_ascii_alnum e then None
            else p ← compile rest'; Some (Lit e :: p)
        | [] => None
        end
      else if Ascii.eqb c "." then
        match rest with
        | r :: rest' =>
            if Ascii.eqb r "*" then p ← compile rest'; Some (DotStar :: p)
            else None
        | [] => None
        end
      else if is_syntax c then None
      else p ← compile rest; Some (Lit c :: p)
  end.

(** A literal under [re.IGNORECASE]: the lower-case forms agree. *)
Definition lit_match (c b : ascii) : bool :=
  Ascii.eqb (Char.tolower b) (Char.tolower c).

(** [.] without [re.DOTALL]: any character but the line feed. *)
Definition dot_match (b : ascii) : bool := negb (Ascii.eqb b Char.LF).

(** Does the pattern match at the start of [s]?  [.*] is greedy and
    gives characters back one by one. *)
Fixpoint match_here (p : pattern) (s : str) : bool :=
  match p with
  | [] => true
  | Lit c :: p' =>
      match s with
      | b :: s' => lit_match c b && match_here p' s'
      | [] => false
      end
  | DotStar :: p' =>
      (fix star (s : str) : bool :=
         match s with
         | b :: s' => dot_match b && star s' || match_here p' s
         | [] => match_here p' s
         end) s
  end.

(** [pattern.search(s)]: a match starting at some position of [s]. *)
Fixpoint search (p : pattern) (s : str) : bool :=
  match_here p s ||
  match s with
  | _ :: s' => search p s'
  | [] => false
  end.

End Re.

(** ** Matcher *)

(** [re.sub(r"\s+", " ", s)]: every maximal run of white space becomes one
    space.  [in_run] tells that the previous character was white space. *)
Fixpoint sub_spaces (in_run : bool) (s : str) : str :=
  match s with
  | [] => []
  | c :: s' =>
      if Char.isspace c
      then (if in_run then sub_spaces true s' else " " :: sub_spaces true s')
      else c :: sub_spaces false s'
  end.

(** The first statement of [fuzzy_search]. *)
Definition normalize (query : str) : str := sub_spaces false (strip query).

(** [fuzzy_search(query, items)].  [None] is an exception of [re.compile]. *)
Definition fuzzy_search (query : str) (items : list str) : option (list str) :=
  let query := normalize query in
  match query with
  | [] => Some items
  | _ =>
      let regex := join (lit ".*") (map Re.escape query) in
      pattern ← Re.compile regex;
      Some (filter (λ item, Re.search pattern item) items)
  end.

(** ** Selection loop *)

(** Key codes read by [getch]: the two literals of the source and the
    [curses] constants [KEY_DOWN], [KEY_UP] and [KEY_BACKSPACE]. *)
Module Key.
Definition ESC : Z := 27.
Definition ENTER : Z := 10.
Definition KEY_DOWN : Z := 258.
Definition KEY_UP : Z := 259.
Definition KEY_BACKSPACE : Z := 263.
End Key.

Inductive exn : Type :=
| IndexError
| ValueError
| ReError.

(** [l[i]] for a Python integer [i]: a negative index counts from the end,
    an index out of range raises [IndexError] ([None]). *)
Definition py_index {A} (l : list A) (i : Z) : option A :=
  let n := Z.of_nat (length l) in
  if ((0 <=? i) && (i <? n))%Z then l !! Z.to_nat i
  else if ((- n <=? i) && (i <? 0))%Z then l !! Z.to_nat (n + i)
  else None.

(** The local variables of [draw_cli]. *)
Record state : Type := State {
  current_index : Z;
  query : str;
  selected_items : list str
}.

(** What one turn of the [while True] loop leaves: the loop goes on with a
    new state, [cli] returns ([None] after [break]), or an exception
    leaves it. *)
Inductive outcome : Type :=
| Active (st : state)
| Return (selected_item : option str)
| Raise (e : exn).

Definition placeholder : str := lit "No matches found".

Definition initial (items : list str) : state :=
  {| current_index := 0; query := []; selected_items := items |}.

(** Lines 82 to 90: the view is computed again from the query, the
    placeholder stands in for an empty result, and the index is cut to the
    last position. *)
Definition refresh (items : list str) (current_index : Z) (query : str)
  : outcome :=
  match fuzzy_search query items with
  | None => Raise ReError
  | Some found =>
      let selected_items :=
        match found with [] => [placeholder] | _ => found end in
      Active {| current_index :=
                  Z.min current_index (Z.of_nat (length selected_items) - 1);
                query := query;
                selected_items := selected_items |}
  end.

(** One turn of the loop on the key [key].  Drawing writes to the terminal
    only and is left out. *)
Definition step (items : list str) (st : state) (key : Z) : outcome :=
  let i := current_index st in
  let n := Z.of_nat (length (selected_items st)) in
  if (key =? Key.ESC)%Z then Return None
  else if ((key =? Key.KEY_UP) && (0 <? i))%Z then
    refresh items (i - 1) (query st)
  else if ((key =? Key.KEY_DOWN) && (i <? n - 1))%Z then
    refresh items (i + 1) (query st)
  else if (key =? Key.ENTER)%Z then
    match py_index (selected_items st) i with
    | Some selected_item => Return (Some selected_item)
    | None => Raise IndexError
    end
  else if (key =? Key.KEY_BACKSPACE)%Z then
    refresh items i (removelast (query st))
  else
    refresh items i
      (query st ++ (if ((32 <=? key) && (key <=? 126))%Z
                    then [Char.chr (Z.to_N key)] else [])).

(** The loop on the keys typed so far; [Active] when it waits for the next
    key. *)
Fixpoint run (items : list str) (st : state) (keys : list Z) : outcome :=
  match keys with
  | [] => Active st
  | key :: keys' =>
      match step items st key with
      | Active st' => run items st' keys'
      | done => done
      end
  end.

(** [cli(items)] with the keys the user types. *)
Definition cli (items : list str) (keys : list Z) : outcome :=
  run items (initial items) keys.

(** The keys that type a string. *)
Definition typed (s : string) : list Z :=
  map (λ c, Z.of_N (Char.code c)) (lit s).

(** ** Path reducer *)

(** [pathlib.PurePosixPath]: the root ([""], ["/"] or ["//"]) and the
    components below it. *)
Module PurePath.

Record t : Type := Path {
  root : str;
  parts : list str
}.

(** [s.split(sep)]; [cur] holds the piece being read, reversed. *)
Fixpoint split_on (sep : ascii) (cur : str) (s : str) : list str :=
  match s with
  | [] => [rev cur]
  | c :: s' =>
      if Ascii.eqb c sep then rev cur :: split_on sep [] s'
      else split_on sep (c :: cur) s'
  end.

Fixpoint lstrip_sep (s : str) : str :=
  match s with
  | [] => []
  | c :: s' => if Ascii.eqb c "/" then lstrip_sep s' else s
  end.

(** [PurePosixPath(s)]: exactly two leading slashes are kept as the root
    ["//"], any other number is one slash; empty components and ["."]
    are dropped. *)
Definition parse (s : str) : t :=
  let stripped := lstrip_sep s in
  let slashes := (length s - length stripped)%nat in
  {| root := match slashes with
             | 0%nat => []
             | 2%nat => lit "//"
             | _ => lit "/"
             end;
     parts := filter (λ x, x ≠ [] ∧ x ≠ lit ".") (split_on "/" [] stripped) |}.

Definition of_string (s : string) : t := parse (lit s).

(** [str(p)]: the empty path is written ["."]. *)
Definition to_str (p : t) : str :=
  match root p ++ join (lit "/") (parts p) with
  | [] => lit "."
  | s => s
  end.

(** [p.parent]: the last component dropped; a path without components
    is its own parent. *)
Definition parent (p : t) : t :=
  {| root := root p; parts := removelast (parts p) |}.

(** [p.is_relative_to(other)]: same root, and the components of [other]
    start those of [p]. *)
Definition is_relative_to (p other : t) : bool :=
  bool_decide (root p = root other)
  && bool_decide (parts other `prefix_of` parts p).

(** [p.relative_to(other)]; [None] is [ValueError]. *)
Definition relative_to (p other : t) : option t :=
  if is_relative_to p other
  then Some {| root := []; parts := drop (length (parts other)) (parts p) |}
  else None.

(** [other / p] for a relative [p]. *)
Definition joinpath (other p : t) : t :=
  {| root := root other; parts := parts other ++ parts p |}.

End PurePath.

(** The result of a function whose loop is run with fuel. *)
Inductive result (A : Type) : Type :=
| Ok (a : A)
| Raised (e : exn)
| OutOfFuel.
Arguments Ok {A} a.
Arguments Raised {A} e.
Arguments OutOfFuel {A}.

(** How the walk over the paths ends: with a prefix, in the early
    [return "", paths] of line 104, or out of fuel. *)
Inductive walk : Type :=
| Walked (common_prefix : PurePath.t)
| EarlyReturn
| WalkOutOfFuel.

(** The [while] loop of lines 101 to 104 for one [path]; each test of the
    loop condition takes one unit of fuel. *)
Fixpoint walk_up (fuel : nat) (path common_prefix : PurePath.t) : walk :=
  match fuel with
  | O => WalkOutOfFuel
  | S fuel' =>
      if PurePath.is_relative_to path common_prefix then Walked common_prefix
      else
        let common_prefix := PurePath.parent common_prefix in
        match PurePath.to_str common_prefix with
        | [] => EarlyReturn
        | _ => walk_up fuel' path common_prefix
        end
  end.

(** The [for] loop of line 100. *)
Fixpoint walk_paths (fuel : nat) (paths : list PurePath.t)
    (common_prefix : PurePath.t) : walk :=
  match paths with
  | [] => Walked common_prefix
  | path :: paths' =>
      match walk_up fuel path common_prefix with
      | Walked common_prefix => walk_paths fuel paths' common_prefix
      | w => w
      end
  end.

(** [find_common_prefix_and_strip_paths(paths)]; every [while] loop may
    test its condition [fuel] times.  [Path(common_prefix.parent)] builds
    the parent again from itself and is the parent. *)
Definition find_common_prefix_and_strip_paths (fuel : nat)
    (paths : list PurePath.t) : result (str * list PurePath.t) :=
  match paths with
  | [] => Ok ([], paths)
  | first :: rest =>
      match walk_paths fuel rest first with
      | EarlyReturn => Ok ([], paths)
      | WalkOutOfFuel => OutOfFuel
      | Walked common_prefix =>
          match mapM (λ path, PurePath.relative_to path common_prefix) paths with
          | Some stripped_paths =>
              Ok (PurePath.to_str common_prefix, stripped_paths)
          | None => Raised ValueError
          end
      end
  end.

(** ** The caller *)

(** [other / p] as [Path.__rtruediv__] computes it: an absolute [p] stands
    alone, a relative [p] is appended to [other]. *)
Definition truediv (other p : PurePath.t) : PurePath.t :=
  match PurePath.root p with
  | [] => PurePath.joinpath other p
  | _ => p
  end.

(** Line 178 of the main block: [common_prefix / Path(selected_item or "")],
    with [common_prefix] the string the path reducer returned. *)
Definition selected_item_path (common_prefix : str)
    (selected_item : option str) : PurePath.t :=
  truediv (PurePath.parse common_prefix)
    (PurePath.parse (default [] selected_item)).

(** ** Notions the statements are written with *)

(** Two characters compared without regard to case. *)
Definition ci_eq (a b : ascii) : Prop := Char.tolower a = Char.tolower b.

(** The characters of [q] occur in [s] in order, compared without regard
    to case, with any characters between them. *)
Inductive ci_subseq : str → str → Prop :=
| ci_subseq_nil s : ci_subseq [] s
| ci_subseq_take a b q s : ci_eq a b → ci_subseq q s → ci_subseq (a :: q) (b :: s)
| ci_subseq_skip b q s : ci_subseq q s → ci_subseq q (b :: s).

(** The same inside one line of [s]: a stretch of [s] without line feed
    holds the characters of [q] in order. *)
Definition ci_subseq_in_line (q s : str) : Prop :=
  ∃ pre mid post, s = pre ++ mid ++ post ∧ (Char.LF ∉ mid) ∧ ci_subseq q mid.

(** The pattern of a query: its characters as literals with [.*] between
    neighbours. *)
Fixpoint subseq_pattern (q : str) : Re.pattern :=
  match q with
  | [] => []
  | [a] => [Re.Lit a]
  | a :: q' => Re.Lit a :: Re.DotStar :: subseq_pattern q'
  end.

(** The capital of a character when it is one character of the range. *)
Definition toupper (c : ascii) : ascii :=
  if Char.islower_simple c then Char.chr (Char.code c - 32) else c.

(** [p.is_relative_to(a)] as a proposition: [p] is [a] or lies below it. *)
Definition below (p a : PurePath.t) : Prop :=
  PurePath.root p = PurePath.root a ∧
  PurePath.parts a `prefix_of` PurePath.parts p.

(** Every path of [paths] is [a] or lies below it. *)
Definition common_ancestor (a : PurePath.t) (paths : list PurePath.t) : Prop :=
  ∀ p, p ∈ paths → below p a.

(** [a] is the deepest common ancestor: every other one lies above it. *)
Definition longest_common_ancestor (a : PurePath.t) (paths : list PurePath.t)
  : Prop :=
  common_ancestor a paths ∧
  ∀ a', common_ancestor a' paths → below a a'.

(** The matcher selects exactly the candidates that hold the normalised
    query as a subsequence, line feeds or not. *)
Definition selects_subsequences (q : str) (items : list str) : Prop :=
  ∃ r, fuzzy_search q items = Some r ∧
       ∀ c, c ∈ r ↔ c ∈ items ∧ ci_subseq (normalize q) c.

(** The matcher gives the same result for [q.upper()] and [q.lower()]. *)
Definition same_for_both_cases (q : str) (items : list str) : Prop :=
  ∃ u, str_upper q = Some u ∧
       fuzzy_search u items = fuzzy_search (str_lower q) items.

(** A component of a path as [pathlib] keeps it: not empty, not ["."],
    without slash. *)
Definition component (x : str) : Prop :=
  x ≠ [] ∧ x ≠ lit "." ∧ "/"%char ∉ x.

(** The paths [PurePosixPath] builds. *)
Definition well_formed (p : PurePath.t) : Prop :=
  PurePath.root p ∈ [[]; lit "/"; lit "//"] ∧
  Forall component (PurePath.parts p).

(** The characters a key can put into the query: codes 32 to 126. *)
Definition printable (c : ascii) : Prop := (32 ≤ Char.code c ≤ 126)%N.

(** What a key does to the query: backspace cuts the last character, a
    printable key adds its character, any other key leaves it. *)
Definition edit_query (q : str) (key : Z) : str :=
  if (key =? Key.KEY_BACKSPACE)%Z then removelast q
  else if ((32 <=? key) && (key <=? 126))%Z then q ++ [Char.chr (Z.to_N key)]
  else q.

(** * Properties *)

(** ** Characters *)

Ltac by_char c :=
  destruct c as [[] [] [] [] [] [] [] []]; vm_compute; try congruence; auto.

Lemma tolower_idem c : Char.tolower (Char.tolower c) = Char.tolower c.
Proof. by_char c. Qed.

Lemma tolower_toupper c : Char.tolower (toupper c) = Char.tolower c.
Proof. by_char c. Qed.

Lemma isspace_tolower c : Char.isspace (Char.tolower c) = Char.isspace c.
Proof. by_char c. Qed.

Lemma isspace_toupper c : Char.isspace (toupper c) = Char.isspace c.
Proof. by_char c. Qed.

Lemma tolower_LF c : Char.tolower c = Char.LF → c = Char.LF.
Proof. by_char c. Qed.

Lemma isspace_LF c : Char.isspace c = false → c ≠ Char.LF.
Proof. by_char c. Qed.

Lemma upper_char_ascii c :
  Char.is_ascii c = true → upper_char c = Some [toupper c].
Proof. by_char c. Qed.

Lemma special_not_alnum c :
  Re.is_special c = true → Char.is_ascii_alnum c = false.
Proof. by_char c. Qed.

Lemma special_backslash c : Re.is_special c = false → Ascii.eqb c "\" = false.
Proof. by_char c. Qed.

Lemma special_dot c : Re.is_special c = false → Ascii.eqb c "." = false.
Proof. by_char c. Qed.

Lemma special_syntax c : Re.is_special c = false → Re.is_syntax c = false.
Proof. by_char c. Qed.

(** ** Normalisation of the query *)

Lemma lstrip_spaces s :
  Forall (λ c, Char.isspace c = true) s → lstrip s = [].
Proof.
  induction 1 as [|c s Hc _ IH]; simpl; [done|]. by rewrite Hc.
Qed.

Lemma normalize_spaces q :
  Forall (λ c, Char.isspace c = true) q → normalize q = [].
Proof.
  intros H. unfold normalize, strip. by rewrite (lstrip_spaces q H).
Qed.

Lemma sub_spaces_no_LF in_run s : Char.LF ∉ sub_spaces in_run s.
Proof.
  revert in_run. induction s as [|c s IH]; intros in_run; simpl.
  - apply not_elem_of_nil.
  - destruct (Char.isspace c) eqn:Hc.
    + destruct in_run; [apply IH|].
      apply not_elem_of_cons. split; [discriminate | apply IH].
    + apply not_elem_of_cons. split; [|apply IH].
      intros Heq. by apply (isspace_LF c Hc).
Qed.

Lemma normalize_no_LF q : Char.LF ∉ normalize q.
Proof. apply sub_spaces_no_LF. Qed.

Section MapChars.
(** A character map that keeps white space white space and the rest
    not, such as [tolower] and [toupper]. *)
Variable f : ascii → ascii.
Hypothesis f_space : ∀ c, Char.isspace (f c) = Char.isspace c.
Hypothesis f_blank : f " "%char = " "%char.

Lemma lstrip_map s : lstrip (map f s) = map f (lstrip s).
Proof.
  induction s as [|c s IH]; simpl; [done|].
  rewrite f_space. by destruct (Char.isspace c).
Qed.

Lemma strip_map s : strip (map f s) = map f (strip s).
Proof.
  unfold strip. by rewrite lstrip_map, <- map_rev, lstrip_map, map_rev.
Qed.

Lemma sub_spaces_map in_run s :
  sub_spaces in_run (map f s) = map f (sub_spaces in_run s).
Proof.
  revert in_run. induction s as [|c s IH]; intros in_run; simpl; [done|].
  rewrite f_space. destruct (Char.isspace c), in_run; simpl;
    rewrite ?IH, ?f_blank; done.
Qed.

Lemma normalize_map s : normalize (map f s) = map f (normalize s).
Proof. unfold normalize. by rewrite strip_map, sub_spaces_map. Qed.
End MapChars.

(** ** The pattern built from a query *)

Lemma compile_escape c rest :
  Re.compile (Re.escape c ++ rest)
  = p ← Re.compile rest; Some (Re.Lit c :: p).
Proof.
  unfold Re.escape. destruct (Re.is_special c) eqn:Hc; simpl.
  - by rewrite (special_not_alnum c Hc).
  - by rewrite (special_backslash c Hc), (special_dot c Hc),
      (special_syntax c Hc).
Qed.

Lemma compile_query q :
  Re.compile (join (lit ".*") (map Re.escape q)) = Some (subseq_pattern q).
Proof.
  induction q as [|a q IH]; [done|].
  destruct q as [|b q].
  - simpl. rewrite <- (app_nil_r (Re.escape a)). by rewrite compile_escape.
  - change (join (lit ".*") (map Re.escape (a :: b :: q)))
      with (Re.escape a ++ lit ".*" ++ join (lit ".*") (map Re.escape (b :: q))).
    rewrite compile_escape.
    change (Re.compile (lit ".*" ++ ?r))
      with (p ← Re.compile r; Some (Re.DotStar :: p)).
    by rewrite IH.
Qed.

(** [fuzzy_search] never raises: it filters with the pattern of the
    normalised query. *)
Lemma fuzzy_search_eq q items :
  fuzzy_search q items
  = Some (match normalize q with
          | [] => items
          | n => filter (λ item, Re.search (subseq_pattern n) item) items
          end).
Proof.
  unfold fuzzy_search. destruct (normalize q) as [|a n] eqn:Hn; [done|].
  by rewrite compile_query.
Qed.

(** ** What the pattern of a query matches *)

Lemma match_here_star p s :
  Re.match_here (Re.DotStar :: p) s
  = match s with
    | b :: s' =>
        Re.dot_match b && Re.match_here (Re.DotStar :: p) s'
        || Re.match_here p s
    | [] => Re.match_here p s
    end.
Proof. by destruct s. Qed.

Lemma match_here_query a q s :
  Re.match_here (subseq_pattern (a :: q)) s
  = match s with
    | b :: s' =>
        Re.lit_match a b &&
        match q with
        | [] => true
        | _ => Re.match_here (Re.DotStar :: subseq_pattern q) s'
        end
    | [] => false
    end.
Proof. by destruct q, s. Qed.

Lemma lit_match_ci a b : Re.lit_match a b = true ↔ ci_eq a b.
Proof. unfold Re.lit_match, ci_eq. rewrite Ascii.eqb_eq. split; congruence. Qed.

Lemma dot_match_LF b : Re.dot_match b = true ↔ b ≠ Char.LF.
Proof.
  unfold Re.dot_match. rewrite negb_true_iff, Ascii.eqb_neq. done.
Qed.

Lemma star_intro p s :
  Re.match_here p s = true → Re.match_here (Re.DotStar :: p) s = true.
Proof.
  intros H. rewrite match_here_star. destruct s; [done|].
  rewrite H. apply orb_true_r.
Qed.

Lemma star_skip p b s :
  b ≠ Char.LF →
  Re.match_here (Re.DotStar :: p) s = true →
  Re.match_here (Re.DotStar :: p) (b :: s) = true.
Proof.
  intros Hb H. rewrite match_here_star, H.
  apply dot_match_LF in Hb. by rewrite Hb.
Qed.

Lemma star_elim p s :
  Re.match_here (Re.DotStar :: p) s = true →
  ∃ skip rest, s = skip ++ rest ∧ (Char.LF ∉ skip) ∧ Re.match_here p rest = true.
Proof.
  induction s as [|b s IH]; rewrite match_here_star; intros H.
  - exists [], []. split_and!; [done | apply not_elem_of_nil | done].
  - apply orb_true_iff in H as [H|H].
    + apply andb_true_iff in H as [Hb H]. apply dot_match_LF in Hb.
      destruct (IH H) as (skip & rest & -> & Hskip & Hrest).
      exists (b :: skip), rest. split_and!; [done | | done].
      apply not_elem_of_cons. split; [congruence | done].
    + exists [], (b :: s). split_and!; [done | apply not_elem_of_nil | done].
Qed.

Lemma star_search p s :
  Re.match_here (Re.DotStar :: p) s = true → Re.search p s = true.
Proof.
  induction s as [|b s IH]; rewrite match_here_star; simpl; intros H.
  - by rewrite H.
  - apply orb_true_iff in H as [H|H].
    + apply andb_true_iff in H as [_ H]. rewrite (IH H). apply orb_true_r.
    + simpl in H. by rewrite H.
Qed.

Lemma search_elim p s :
  Re.search p s = true → ∃ pre rest, s = pre ++ rest ∧ Re.match_here p rest = true.
Proof.
  induction s as [|b s IH]; simpl; intros H.
  - exists [], []. by rewrite orb_false_r in H.
  - apply orb_true_iff in H as [H|H].
    + by exists [], (b :: s).
    + destruct (IH H) as (pre & rest & -> & Hrest). by exists (b :: pre), rest.
Qed.

Lemma search_app p pre s :
  Re.search p s = true → Re.search p (pre ++ s) = true.
Proof.
  intros H. induction pre as [|b pre IH]; [done|].
  simpl. rewrite IH. apply orb_true_r.
Qed.

Lemma ci_subseq_app skip q mid : ci_subseq q mid → ci_subseq q (skip ++ mid).
Proof.
  intros H. induction skip; [done|]. simpl. by constructor.
Qed.

(** A match of the pattern spans a stretch without line feed that holds
    the query. *)
Lemma match_here_subseq q s :
  Char.LF ∉ q →
  Re.match_here (subseq_pattern q) s = true →
  ∃ mid post, s = mid ++ post ∧ (Char.LF ∉ mid) ∧ ci_subseq q mid.
Proof.
  revert s. induction q as [|a q IH]; intros s Hq H.
  - exists [], s. split_and!; [done | apply not_elem_of_nil | constructor].
  - apply not_elem_of_cons in Hq as [Ha Hq].
    rewrite match_here_query in H. destruct s as [|b s]; [done|].
    apply andb_true_iff in H as [Hab H]. apply lit_match_ci in Hab.
    assert (b ≠ Char.LF) as Hb.
    { intros ->. apply Ha. symmetry. by apply tolower_LF. }
    destruct q as [|a' q].
    + exists [b], s. split_and!; [done | | by repeat constructor].
      apply not_elem_of_cons. split; [congruence | apply not_elem_of_nil].
    + apply star_elim in H as (skip & rest & -> & Hskip & H).
      destruct (IH rest Hq H) as (mid & post & -> & Hmid & Hsub).
      exists (b :: skip ++ mid), post. split_and!.
      * simpl. f_equal. apply app_assoc.
      * apply not_elem_of_cons. split; [congruence|].
        rewrite elem_of_app. tauto.
      * constructor; [done|]. by apply ci_subseq_app.
Qed.

(** A stretch without line feed that holds the query is matched, after
    any characters of the stretch. *)
Lemma subseq_match_here q mid :
  ci_subseq q mid → Char.LF ∉ mid →
  ∀ post, Re.match_here (Re.DotStar :: subseq_pattern q) (mid ++ post) = true.
Proof.
  induction 1 as [s | a b q s Hab Hsub IH | b q s Hsub IH]; intros Hmid post.
  - by apply star_intro.
  - apply not_elem_of_cons in Hmid as [Hb Hmid].
    apply star_intro. simpl app. rewrite match_here_query.
    apply lit_match_ci in Hab. rewrite Hab. simpl.
    destruct q; [done|]. by apply IH.
  - apply not_elem_of_cons in Hmid as [Hb Hmid].
    simpl app. apply star_skip; [congruence|]. by apply IH.
Qed.

Lemma search_query q s :
  Char.LF ∉ q →
  Re.search (subseq_pattern q) s = true ↔ ci_subseq_in_line q s.
Proof.
  intros Hq. split.
  - intros H. apply search_elim in H as (pre & rest & -> & H).
    apply match_here_subseq in H as (mid & post & -> & Hmid & Hsub); [|done].
    by exists pre, mid, post.
  - intros (pre & mid & post & -> & Hmid & Hsub).
    apply search_app, star_search. by apply subseq_match_here.
Qed.

Lemma ci_subseq_ci q q' s : Forall2 ci_eq q q' → ci_subseq q s → ci_subseq q' s.
Proof.
  intros HF H. revert q' HF.
  induction H as [s | a b q s Hab Hsub IH | b q s Hsub IH]; intros q' HF.
  - inversion HF. constructor.
  - inversion HF as [|? a' ? q'' Ha Hq]; subst.
    constructor; [|by apply IH]. unfold ci_eq in *. congruence.
  - constructor. by apply IH.
Qed.

Lemma filter_search_ci q q' (items : list str) :
  Forall2 ci_eq q q' → Char.LF ∉ q → Char.LF ∉ q' →
  filter (λ item, Re.search (subseq_pattern q) item) items
  = filter (λ item, Re.search (subseq_pattern q') item) items.
Proof.
  intros HF Hq Hq'. apply list_filter_iff. intros item.
  rewrite !Is_true_true, !search_query by done.
  assert (Forall2 ci_eq q' q) as HF'.
  { apply Forall2_flip. eapply Forall2_impl; [exact HF|]. by unfold ci_eq. }
  split; intros (pre & mid & post & -> & Hmid & Hsub);
    exists pre, mid, post; eauto using ci_subseq_ci.
Qed.

Lemma str_upper_ascii q :
  Forall (λ c, Char.is_ascii c = true) q → str_upper q = Some (map toupper q).
Proof.
  induction 1 as [|c q Hc _ IH]; [done|].
  simpl. by rewrite (upper_char_ascii c Hc), IH.
Qed.

Lemma toupper_tolower_ci l : Forall2 ci_eq (map toupper l) (map Char.tolower l).
Proof.
  induction l as [|c l IH]; simpl; constructor; [|exact IH].
  unfold ci_eq. by rewrite tolower_toupper, tolower_idem.
Qed.

Lemma fuzzy_search_toupper q items :
  fuzzy_search (map toupper q) items = fuzzy_search (str_lower q) items.
Proof.
  unfold str_lower.
  pose proof (normalize_no_LF (map toupper q)) as Hu.
  pose proof (normalize_no_LF (map Char.tolower q)) as Hl.
  rewrite !fuzzy_search_eq. f_equal.
  rewrite (normalize_map toupper isspace_toupper eq_refl) in *.
  rewrite (normalize_map Char.tolower isspace_tolower eq_refl) in *.
  destruct (normalize q) as [|a n]; [done|].
  apply filter_search_ci; [|done..].
  exact (toupper_tolower_ci (a :: n)).
Qed.

(** ** The matcher *)

(** C5.  A query made of white space only (the empty query among them) is
    empty after normalisation, and the matcher returns [items] itself. *)
Theorem fuzzy_search_empty_query (q : str) (items : list str) :
  Forall (λ c, Char.isspace c = true) q →
  normalize q = [] ∧ fuzzy_search q items = Some items.
Proof.
  intros H. pose proof (normalize_spaces q H) as Hn.
  split; [done|]. by rewrite fuzzy_search_eq, Hn.
Qed.

Lemma fuzzy_search_empty_query_witness :
  Forall (λ c, Char.isspace c = true) [" "; "009"; " "]%char ∧
  normalize [" "; "009"; " "]%char = [] ∧
  fuzzy_search [" "; "009"; " "]%char [lit "Go.gitignore"; lit "C.gitignore"]
  = Some [lit "Go.gitignore"; lit "C.gitignore"].
Proof.
  split; [by repeat constructor|].
  apply fuzzy_search_empty_query. by repeat constructor.
Defined.

(** C6.  The result of the matcher is a sublist of [items]: its elements
    are elements of [items], in the order of [items]. *)
Theorem fuzzy_search_sublist (q : str) (items : list str) :
  ∃ r, fuzzy_search q items = Some r ∧
       r `sublist_of` items ∧ ∀ c, c ∈ r → c ∈ items.
Proof.
  rewrite fuzzy_search_eq. eexists. split; [done|].
  destruct (normalize q).
  - split; [done | auto].
  - split; [apply sublist_filter; apply _|].
    intros c Hc. by apply list_elem_of_filter in Hc as [_ Hc].
Qed.

(** C8.  Matching the result of a match again with the same query changes
    nothing. *)
Theorem fuzzy_search_idempotent (q : str) (items : list str) :
  ∃ r, fuzzy_search q items = Some r ∧ fuzzy_search q r = Some r.
Proof.
  rewrite fuzzy_search_eq. eexists. split; [done|].
  rewrite fuzzy_search_eq. f_equal.
  destruct (normalize q); [done|].
  rewrite list_filter_filter. apply list_filter_iff. tauto.
Qed.

(** A candidate that holds the query only across a line feed is not
    selected: [.] does not match the line feed. *)
Lemma subsequence_across_lines_not_selected :
  lit "ab" ≠ [] ∧
  ¬ selects_subsequences (lit "ab") [["a"; Char.LF; "b"]%char].
Proof.
  split; [done|]. intros (r & Hr & H).
  vm_compute in Hr. injection Hr as <-.
  apply (not_elem_of_nil ["a"; Char.LF; "b"]%char), H. split.
  - apply list_elem_of_singleton. reflexivity.
  - change (normalize (lit "ab")) with ["a"; "b"]%char.
    apply ci_subseq_take; [done|].
    apply ci_subseq_skip, ci_subseq_take; [done | apply ci_subseq_nil].
Qed.

(** C3, amended.  A candidate is returned exactly when it is one of the
    items and the characters of the normalised query occur in it in order,
    compared without regard to case and character for character (no
    character of the query acts as pattern syntax), inside a stretch of the
    candidate that holds no line feed.  The query [n.g] selects
    [Node.gitignore] (and [Python.gitignore], which holds n, ., g in order
    as well); the query [py] selects exactly [Python.gitignore]. *)
Theorem fuzzy_search_subsequence :
  (∀ (q : str) (items : list str),
     ∃ r, fuzzy_search q items = Some r ∧
          ∀ c, c ∈ r ↔ c ∈ items ∧ ci_subseq_in_line (normalize q) c)
  ∧ fuzzy_search (lit "n.g") (map lit ["Node.gitignore"; "Python.gitignore"]%string)
    = Some (map lit ["Node.gitignore"; "Python.gitignore"]%string)
  ∧ fuzzy_search (lit "py")
      (map lit ["Node.gitignore"; "Python.gitignore"; "Go.gitignore"]%string)
    = Some [lit "Python.gitignore"].
Proof.
  split; [|split; vm_compute; reflexivity].
  intros q items. rewrite fuzzy_search_eq. eexists. split; [done|].
  intros c. pose proof (normalize_no_LF q) as HLF.
  destruct (normalize q) as [|a n] eqn:Hn.
  - split; [|tauto]. intros Hc. split; [done|].
    exists [], [], c. split_and!; [done | apply not_elem_of_nil | constructor].
  - rewrite list_elem_of_filter, Is_true_true, search_query by done. tauto.
Qed.

(** A dot in the query stands for a dot, not for any character. *)
Example fuzzy_search_dot_literal :
  fuzzy_search (lit ".") (map lit ["ab"; "a.b"; "(.*)"]%string)
  = Some (map lit ["a.b"; "(.*)"]%string).
Proof. vm_compute. reflexivity. Qed.

Example fuzzy_search_star_literal :
  fuzzy_search (lit "*)") (map lit ["ab"; "a.b"; "(.*)"]%string)
  = Some [lit "(.*)"].
Proof. vm_compute. reflexivity. Qed.

(** The sharp s: its upper-case form is SS, which matches [ss]; the sharp s
    itself does not. *)
Lemma sharp_s_not_same_for_both_cases :
  ¬ same_for_both_cases [Char.chr 223] [lit "ss"].
Proof.
  intros (u & Hu & H). vm_compute in Hu. injection Hu as <-.
  vm_compute in H. discriminate.
Qed.

(** C7, amended.  For a query of ASCII characters the matcher returns the
    same for the upper-case and the lower-case form of the query. *)
Theorem fuzzy_search_case_insensitive (q : str) (items : list str) :
  Forall (λ c, Char.is_ascii c = true) q → same_for_both_cases q items.
Proof.
  intros Hq. exists (map toupper q). split.
  - by apply str_upper_ascii.
  - apply fuzzy_search_toupper.
Qed.

Lemma fuzzy_search_case_insensitive_witness :
  Forall (λ c, Char.is_ascii c = true) (lit "Py") ∧
  same_for_both_cases (lit "Py") (map lit ["Python.gitignore"; "Go.gitignore"]%string).
Proof.
  split; [by repeat constructor|].
  apply fuzzy_search_case_insensitive. by repeat constructor.
Defined.

(** ** The selection loop *)

Lemma py_index_elem_of {A} (l : list A) i x : py_index l i = Some x → x ∈ l.
Proof.
  unfold py_index. intros H.
  repeat case_match; try done; by eapply list_elem_of_lookup_2.
Qed.

Lemma py_index_in_range {A} (l : list A) i :
  (0 ≤ i < Z.of_nat (length l))%Z → is_Some (py_index l i).
Proof.
  intros Hi. unfold py_index.
  replace ((0 <=? i)%Z && (i <? Z.of_nat (length l))%Z) with true
    by (symmetry; apply andb_true_iff; lia).
  apply lookup_lt_is_Some. lia.
Qed.

(** The recomputation never fails and leaves a view that is not empty,
    with the index cut to its last position. *)
Lemma refresh_active items i q :
  ∃ st, refresh items i q = Active st ∧
        query st = q ∧
        selected_items st ≠ [] ∧
        current_index st = Z.min i (Z.of_nat (length (selected_items st)) - 1) ∧
        ((∀ x, x ∈ selected_items st → x ∈ items) ∨
         selected_items st = [placeholder]).
Proof.
  unfold refresh. rewrite fuzzy_search_eq.
  set (found := match normalize q with
                | [] => items
                | n => filter (λ item, Re.search (subseq_pattern n) item) items
                end).
  assert (∀ x, x ∈ found → x ∈ items) as Hfound.
  { subst found. destruct (normalize q); [done|].
    intros x Hx. by apply list_elem_of_filter in Hx as [_ Hx]. }
  eexists. split; [done|]. simpl. destruct found; simpl; eauto 6.
Qed.

(** After a turn that leaves the loop running the index is a position of
    the view. *)
Lemma step_index items st key st' :
  (0 ≤ current_index st)%Z →
  step items st key = Active st' →
  (0 ≤ current_index st' < Z.of_nat (length (selected_items st')))%Z.
Proof.
  intros Hi. unfold step.
  assert (∀ i q, (0 ≤ i)%Z → refresh items i q = Active st' →
    (0 ≤ current_index st' < Z.of_nat (length (selected_items st')))%Z) as Hr.
  { intros i q H0 H. destruct (refresh_active items i q) as (s & Hs & _ & Hne & Hc & _).
    rewrite Hs in H. injection H as ->.
    destruct (selected_items st'); [done|]. simpl length in *. lia. }
  repeat case_match; try done; intros Hact; eapply Hr; try exact Hact;
    repeat match goal with
    | Hb : (_ && _) = true |- _ => apply andb_true_iff in Hb as [? ?]
    end; lia.
Qed.

Lemma run_index items keys st st' :
  (0 ≤ current_index st)%Z →
  (selected_items st ≠ [] →
   (current_index st < Z.of_nat (length (selected_items st)))%Z) →
  run items st keys = Active st' →
  (0 ≤ current_index st')%Z ∧
  (selected_items st' ≠ [] →
   (current_index st' < Z.of_nat (length (selected_items st')))%Z).
Proof.
  revert st. induction keys as [|key keys IH]; intros st H0 H1 H; simpl in H.
  - by injection H as <-.
  - destruct (step items st key) as [st1| |] eqn:Hstep; try done.
    pose proof (step_index _ _ _ _ H0 Hstep).
    apply (IH st1); [lia | intros; lia | done].
Qed.

(** C4.  In every state the loop reaches the index is a position of the
    view when the view is not empty, and after every further recomputation
    of the view the index is again a position of the new view. *)
Theorem cursor_in_range (items : list str) (keys : list Z) (st : state) :
  cli items keys = Active st →
  (selected_items st ≠ [] →
   (0 ≤ current_index st < Z.of_nat (length (selected_items st)))%Z) ∧
  (∀ key st', step items st key = Active st' →
   (0 ≤ current_index st' < Z.of_nat (length (selected_items st')))%Z).
Proof.
  intros H. unfold cli in H.
  apply run_index in H as [H0 H1]; simpl; [|lia|].
  - split; [intros Hne; split; [done | by apply H1]|].
    intros key st'. by apply step_index.
  - intros Hne. destruct items; [done|]. simpl. lia.
Qed.

Lemma cursor_in_range_witness :
  let items := map lit ["Node.gitignore"; "Nim.gitignore"; "Go.gitignore"]%string in
  let st := State 2 (lit "n") items in
  cli items (typed "n" ++ [Key.KEY_DOWN; Key.KEY_DOWN]) = Active st ∧
  (selected_items st ≠ [] →
   (0 ≤ current_index st < Z.of_nat (length (selected_items st)))%Z) ∧
  (∀ key st', step items st key = Active st' →
   (0 ≤ current_index st' < Z.of_nat (length (selected_items st')))%Z).
Proof.
  intros items st.
  assert (cli items (typed "n" ++ [Key.KEY_DOWN; Key.KEY_DOWN]) = Active st) as H
    by (vm_compute; reflexivity).
  split; [exact H|]. exact (cursor_in_range _ _ _ H).
Defined.

Lemma run_no_index_error items keys st :
  (0 ≤ current_index st < Z.of_nat (length (selected_items st)))%Z →
  run items st keys ≠ Raise IndexError.
Proof.
  revert st. induction keys as [|key keys IH]; intros st Hi; simpl; [done|].
  destruct (step items st key) as [st1| |e] eqn:Hstep; try done.
  - apply IH. eapply step_index; [|exact Hstep]. lia.
  - intros [= ->]. revert Hstep. unfold step.
    destruct (py_index_in_range (selected_items st) (current_index st) Hi)
      as [x ->].
    repeat case_match; try done;
      match goal with
      | |- refresh ?i ?n ?q = _ → _ =>
          destruct (refresh_active i n q) as (? & -> & _); done
      end.
Qed.

Lemma run_in_range items keys st st' :
  (0 ≤ current_index st < Z.of_nat (length (selected_items st)))%Z →
  run items st keys = Active st' →
  (0 ≤ current_index st' < Z.of_nat (length (selected_items st')))%Z.
Proof.
  revert st. induction keys as [|key keys IH]; intros st Hi H; simpl in H.
  - by injection H as <-.
  - destruct (step items st key) as [st1| |] eqn:Hstep; try done.
    apply (IH st1); [|done]. eapply step_index; [|exact Hstep]. lia.
Qed.

Lemma refresh_no_items i q :
  refresh [] i q
  = Active {| current_index := Z.min i 0; query := q;
              selected_items := [placeholder] |}.
Proof.
  unfold refresh. rewrite fuzzy_search_eq. by destruct (normalize q).
Qed.

(** C10.  The index of the confirm branch is a position of the view in
    every state the loop reaches exactly when [items] is not empty.  With
    no item the first view is the empty list, enter as the first key raises
    [IndexError], and any key that keeps the loop running puts the
    placeholder into the view. *)
Theorem confirm_in_bounds_iff_items (items : list str) :
  ((∀ keys st, cli items keys = Active st →
      is_Some (py_index (selected_items st) (current_index st)))
   ↔ items ≠ [])
  ∧ selected_items (initial []) = []
  ∧ cli [] [Key.ENTER] = Raise IndexError
  ∧ (∀ key st', step [] (initial []) key = Active st' →
       selected_items st' = [placeholder]).
Proof.
  split_and!; [split | done | done |].
  - intros H ->. by destruct (H [] (initial []) eq_refl).
  - intros Hne keys st Hst. apply py_index_in_range.
    eapply run_in_range; [|exact Hst]. simpl.
    destruct items; [done|]. simpl. lia.
  - intros key st'. unfold step. rewrite !refresh_no_items.
    repeat case_match; try done; by intros [= <-].
Qed.

(** The scenario of the specification: py, down, down, enter. *)
Example cli_py_scenario :
  cli (map lit ["Node.gitignore"; "Python.gitignore"; "Go.gitignore"]%string)
    (typed "py" ++ [Key.KEY_DOWN; Key.KEY_DOWN; Key.ENTER])
  = Return (Some (lit "Python.gitignore")).
Proof. vm_compute. reflexivity. Qed.

Example cli_escape :
  cli (map lit ["Node.gitignore"; "Python.gitignore"]%string)
    (typed "no" ++ [Key.KEY_BACKSPACE; Key.ESC; Key.ENTER])
  = Return None.
Proof. vm_compute. reflexivity. Qed.

(** What confirm can return: an item, or the placeholder. *)
Lemma run_returns items keys st x :
  ((∀ y, y ∈ selected_items st → y ∈ items) ∨ selected_items st = [placeholder]) →
  run items st keys = Return (Some x) →
  x ∈ items ∨ x = placeholder.
Proof.
  revert st. induction keys as [|key keys IH]; intros st Hst; simpl; [done|].
  destruct (step items st key) as [st1|r|] eqn:Hstep; try done.
  - apply IH. revert Hstep. unfold step.
    repeat case_match; try done;
      match goal with
      | |- refresh ?i ?n ?q = _ → _ =>
          destruct (refresh_active i n q) as (? & -> & _ & _ & _ & ?);
          by intros [= <-]
      end.
  - intros [= ->]. revert Hstep. unfold step.
    repeat case_match; try done;
      try match goal with
      | |- refresh ?i ?n ?q = _ → _ =>
          destruct (refresh_active i n q) as (? & -> & _); done
      end.
    intros [= <-].
    match goal with H : py_index _ _ = Some _ |- _ =>
      apply py_index_elem_of in H; rename H into Hx end.
    destruct Hst as [Hst | Hst]; [left; by apply Hst|].
    rewrite Hst in Hx. apply list_elem_of_singleton in Hx. by right.
Qed.

(** C1.  On the items of the example the keys z, z, z, enter make the loop
    return the placeholder, which is none of the items. *)
Theorem confirm_returns_placeholder :
  let items := map lit ["Node.gitignore"; "Python.gitignore"; "Go.gitignore"]%string in
  cli items (typed "zzz" ++ [Key.ENTER]) = Return (Some placeholder) ∧
  placeholder ∉ items.
Proof.
  split; [vm_compute; reflexivity|].
  intros H. vm_compute in H.
  repeat (apply elem_of_cons in H as [H|H]; [discriminate|]).
  by apply elem_of_nil in H.
Qed.

(** ** The path reducer *)

Import PurePath.

Lemma is_relative_to_below p a : is_relative_to p a = true ↔ below p a.
Proof.
  unfold is_relative_to, below.
  rewrite andb_true_iff, !bool_decide_eq_true. done.
Qed.

Lemma below_refl p : below p p.
Proof. by split. Qed.

Lemma below_trans p a b : below p a → below a b → below p b.
Proof. intros [? ?] [? ?]. split; [congruence | by etrans]. Qed.

Lemma removelast_prefix {A} (l : list A) : removelast l `prefix_of` l.
Proof.
  induction l as [|x l IH]; [done|].
  destruct l as [|y l]; [by exists [x]|].
  change (removelast (x :: y :: l)) with (x :: removelast (y :: l)).
  by apply prefix_cons.
Qed.

Lemma prefix_removelast {A} (l1 l2 : list A) :
  l1 `prefix_of` l2 → l1 ≠ l2 → l1 `prefix_of` removelast l2.
Proof.
  intros [k ->] Hne. destruct k as [|x k]; [by rewrite app_nil_r in Hne|].
  rewrite removelast_app by done. by apply prefix_app_r.
Qed.

Lemma removelast_shorter {A} (l : list A) :
  l ≠ [] → length (removelast l) < length l.
Proof.
  induction l as [|x l IH]; intros Hne; [done|].
  destruct l as [|y l]; [simpl; lia|].
  change (removelast (x :: y :: l)) with (x :: removelast (y :: l)).
  simpl length in *. specialize (IH ltac:(done)). lia.
Qed.

Lemma below_parent p : below p (parent p).
Proof. split; [done | apply removelast_prefix]. Qed.

(** [str] of a path is never the empty string: the test of line 103 never
    holds. *)
Lemma to_str_nonempty p : to_str p ≠ [].
Proof. unfold to_str. by destruct (root p ++ join (lit "/") (parts p)). Qed.

Lemma walk_up_not_early fuel path cp : walk_up fuel path cp ≠ EarlyReturn.
Proof.
  revert cp. induction fuel as [|fuel IH]; intros cp; simpl; [done|].
  destruct (is_relative_to path cp); [done|].
  pose proof (to_str_nonempty (parent cp)).
  destruct (to_str (parent cp)); [done | apply IH].
Qed.

Lemma walk_paths_not_early fuel paths cp : walk_paths fuel paths cp ≠ EarlyReturn.
Proof.
  revert cp. induction paths as [|path paths IH]; intros cp; simpl; [done|].
  pose proof (walk_up_not_early fuel path cp).
  destruct (walk_up fuel path cp); [apply IH | done | done].
Qed.

(** The early return is dead code: a returned prefix is never empty when
    there are paths. *)
Lemma prefix_never_empty fuel paths prefix stripped :
  paths ≠ [] →
  find_common_prefix_and_strip_paths fuel paths = Ok (prefix, stripped) →
  prefix ≠ [].
Proof.
  intros Hne. unfold find_common_prefix_and_strip_paths.
  destruct paths as [|first rest]; [done|].
  pose proof (walk_paths_not_early fuel rest first).
  destruct (walk_paths fuel rest first) as [cp| |]; try done.
  destruct (mapM _ _); [|done]. intros [= <- _]. apply to_str_nonempty.
Qed.

(** The [while] loop stops at the deepest path at or above [cp] that
    [path] lies below, within one test more than [cp] has components. *)
Lemma walk_up_below fuel path cp :
  root path = root cp → length (parts cp) < fuel →
  ∃ cp', walk_up fuel path cp = Walked cp' ∧
         below path cp' ∧ below cp cp' ∧
         ∀ a, below path a → below cp a → below cp' a.
Proof.
  revert cp. induction fuel as [|fuel IH]; intros cp Hroot Hlen; [lia|].
  simpl. destruct (is_relative_to path cp) eqn:Hrel.
  - exists cp. apply is_relative_to_below in Hrel.
    split_and!; auto using below_refl.
  - assert (parts cp ≠ []) as Hne.
    { intros Hnil. apply not_true_iff_false in Hrel. apply Hrel.
      apply is_relative_to_below. split; [done|].
      rewrite Hnil. apply prefix_nil. }
    pose proof (to_str_nonempty (parent cp)).
    destruct (to_str (parent cp)) as [|c0 s0] eqn:Hstr; [done|].
    destruct (IH (parent cp)) as (cp' & -> & Hp & Hc & Hmax); [done | |].
    { pose proof (removelast_shorter (parts cp) Hne). simpl. lia. }
    exists cp'. split_and!; [done | done | |].
    + eapply below_trans; [apply below_parent | done].
    + intros a Ha [Hr Hpre]. apply Hmax; [done|].
      split; [done|]. apply prefix_removelast; [done|].
      intros Heq. apply not_true_iff_false in Hrel. apply Hrel.
      apply is_relative_to_below. split; [done|].
      rewrite <- Heq. by destruct Ha.
Qed.

Lemma below_length p a : below p a → length (parts a) ≤ length (parts p).
Proof. intros [_ H]. by apply prefix_length. Qed.

(** The [for] loop: the deepest path at or above [cp] that all of [paths]
    lie below. *)
Lemma walk_paths_below fuel paths cp :
  Forall (λ p, root p = root cp) paths → length (parts cp) < fuel →
  ∃ cp', walk_paths fuel paths cp = Walked cp' ∧
         below cp cp' ∧ Forall (λ p, below p cp') paths ∧
         ∀ a, below cp a → Forall (λ p, below p a) paths → below cp' a.
Proof.
  revert cp. induction paths as [|path paths IH]; intros cp Hroots Hlen.
  - exists cp. split_and!; auto using below_refl.
  - apply Forall_cons in Hroots as [Hroot Hroots]. simpl.
    destruct (walk_up_below fuel path cp Hroot Hlen)
      as (cp1 & -> & Hp1 & Hc1 & Hmax1).
    destruct (IH cp1) as (cp' & -> & Hc' & Hall & Hmax).
    { eapply Forall_impl; [exact Hroots|]. intros p Hp. simpl in Hp.
      destruct Hc1. congruence. }
    { pose proof (below_length _ _ Hc1). lia. }
    exists cp'. split_and!; [done | by eapply below_trans | |].
    + constructor; [by eapply below_trans | done].
    + intros a Ha Hfa. apply Forall_cons in Hfa as [Hpa Hfa]. auto.
Qed.

Lemma below_antisym a b : below a b → below b a → a = b.
Proof.
  destruct a as [ra pa], b as [rb pb]. intros [Hr Hab] [_ Hba]. simpl in *.
  f_equal; [done|].
  destruct Hab as [k Hk], Hba as [k' Hk']. rewrite Hk' in Hk.
  rewrite <- app_assoc in Hk. apply (f_equal length) in Hk.
  rewrite !length_app in Hk. destruct k'; [|simpl in Hk; lia].
  by rewrite app_nil_r in Hk'.
Qed.

Lemma relative_to_below p a :
  below p a →
  ∃ r, relative_to p a = Some r ∧ root r = [] ∧ p = joinpath a r.
Proof.
  intros Hb. pose proof Hb as [Hr [k Hk]]. unfold relative_to.
  rewrite (proj2 (is_relative_to_below p a) Hb). eexists. split; [done|].
  split; [done|]. destruct p as [rp pp]. unfold joinpath. simpl in *.
  f_equal; [done|]. by rewrite Hk, drop_app_length.
Qed.

Lemma strip_paths a paths :
  Forall (λ p, below p a) paths →
  ∃ stripped,
    mapM (λ path, relative_to path a) paths = Some stripped ∧
    Forall2 (λ p r, relative_to p a = Some r ∧ p = joinpath a r) paths stripped.
Proof.
  induction 1 as [|p paths Hp _ (stripped & Hm & HF)].
  - by exists [].
  - destruct (relative_to_below p a Hp) as (r & Hr & _ & Hj).
    exists (r :: stripped). split; [|by constructor].
    simpl. rewrite Hr. simpl. by rewrite Hm.
Qed.

(** C9.  When the paths have a common ancestor, the reducer returns (with
    fuel for one loop test more than the first path has components) the longest
    common ancestor as prefix, and every path relative to it: joined to the
    prefix, each relative path gives back the input path.  On
    [/a/b/x.gitignore] and [/a/b/c/y.gitignore] the prefix is [/a/b] and
    the relative paths are [x.gitignore] and [c/y.gitignore]. *)
Theorem common_prefix_longest :
  (∀ (first : PurePath.t) (rest : list PurePath.t),
     (∃ a, common_ancestor a (first :: rest)) →
     ∃ a stripped,
       (∀ fuel, length (parts first) < fuel →
          find_common_prefix_and_strip_paths fuel (first :: rest)
          = Ok (to_str a, stripped)) ∧
       longest_common_ancestor a (first :: rest) ∧
       Forall2 (λ p r, relative_to p a = Some r ∧ p = joinpath a r)
         (first :: rest) stripped)
  ∧ (∀ fuel,
       find_common_prefix_and_strip_paths (2 + fuel)
         (map of_string ["/a/b/x.gitignore"; "/a/b/c/y.gitignore"]%string)
       = Ok (lit "/a/b", map of_string ["x.gitignore"; "c/y.gitignore"]%string))
  ∧ map to_str (map of_string ["x.gitignore"; "c/y.gitignore"]%string)
    = map lit ["x.gitignore"; "c/y.gitignore"]%string.
Proof.
  split; [|split; [intros fuel; vm_compute; reflexivity | reflexivity]].
  intros first rest [a0 Ha0].
  assert (Forall (λ p, root p = root first) rest) as Hroots.
  { apply Forall_forall. intros p Hp.
    destruct (Ha0 p) as [-> _]; [by right|].
    destruct (Ha0 first) as [-> _]; [by left | done]. }
  assert (∀ fuel, length (parts first) < fuel →
    ∃ a, walk_paths fuel rest first = Walked a ∧
         longest_common_ancestor a (first :: rest)) as Hwalk.
  { intros fuel Hfuel.
    destruct (walk_paths_below fuel rest first Hroots Hfuel)
      as (a & Hw & Hfa & Hall & Hmax).
    exists a. split; [done|]. split.
    - intros p [->|Hp]%elem_of_cons; [done|].
      by apply (proj1 (Forall_forall _ _) Hall).
    - intros a' Ha'. apply Hmax; [apply Ha'; by left|].
      apply Forall_forall. intros p Hp. apply Ha'. by right. }
  destruct (Hwalk (S (length (parts first)))) as (a & _ & Ha); [lia|].
  destruct (strip_paths a (first :: rest)) as (stripped & Hm & HF).
  { apply Forall_forall. apply Ha. }
  exists a, stripped. split_and!; [|done|done].
  intros fuel Hfuel. destruct (Hwalk fuel Hfuel) as (a' & Hw & Ha').
  assert (a' = a) as ->.
  { apply below_antisym;
      [apply (proj2 Ha'), (proj1 Ha) | apply (proj2 Ha), (proj1 Ha')]. }
  unfold find_common_prefix_and_strip_paths. by rewrite Hw, Hm.
Qed.

Lemma common_prefix_longest_witness :
  let first := of_string "/a/b/x.gitignore" in
  let rest := [of_string "/a/b/c/y.gitignore"] in
  (∃ a, common_ancestor a (first :: rest)) ∧
  ∃ a stripped,
    (∀ fuel, length (parts first) < fuel →
       find_common_prefix_and_strip_paths fuel (first :: rest)
       = Ok (to_str a, stripped)) ∧
    longest_common_ancestor a (first :: rest) ∧
    Forall2 (λ p r, relative_to p a = Some r ∧ p = joinpath a r)
      (first :: rest) stripped.
Proof.
  intros first rest.
  assert (∃ a, common_ancestor a (first :: rest)) as H.
  { exists (of_string "/a"). intros p Hp. apply is_relative_to_below.
    repeat (apply elem_of_cons in Hp as [->|Hp]; [by vm_compute|]).
    by apply elem_of_nil in Hp. }
  split; [exact H|]. exact (proj1 common_prefix_longest first rest H).
Defined.

(** C2.  On [/a/x.gitignore] and [/b/y.gitignore] the reducer (with fuel
    for three loop tests or more) returns the prefix [/] and the paths relative
    to it, not the empty prefix with the paths as given. *)
Theorem no_common_ancestor_returns_root (fuel : nat) :
  let paths := map of_string ["/a/x.gitignore"; "/b/y.gitignore"]%string in
  find_common_prefix_and_strip_paths (3 + fuel) paths
  = Ok (lit "/", map of_string ["a/x.gitignore"; "b/y.gitignore"]%string)
  ∧ find_common_prefix_and_strip_paths (3 + fuel) paths ≠ Ok ([], paths).
Proof.
  assert (find_common_prefix_and_strip_paths (3 + fuel)
            (map of_string ["/a/x.gitignore"; "/b/y.gitignore"]%string)
          = Ok (lit "/", map of_string ["a/x.gitignore"; "b/y.gitignore"]%string))
    as H by (vm_compute; reflexivity).
  intros paths. split; [exact H|]. unfold paths. rewrite H.
  vm_compute. discriminate.
Qed.

(** With an absolute and a relative path no parent is ever a common
    ancestor: the [while] loop never ends, whatever the fuel. *)
Lemma walk_up_mixed_roots fuel path cp :
  root path ≠ root cp → walk_up fuel path cp = WalkOutOfFuel.
Proof.
  revert cp. induction fuel as [|fuel IH]; intros cp Hroot; simpl; [done|].
  destruct (is_relative_to path cp) eqn:Hrel.
  - apply is_relative_to_below in Hrel as [? _]. done.
  - pose proof (to_str_nonempty (parent cp)).
    destruct (to_str (parent cp)); [done | by apply IH].
Qed.

Example mixed_roots_out_of_fuel fuel :
  find_common_prefix_and_strip_paths fuel
    (map of_string ["/a/x.gitignore"; "b/y.gitignore"]%string)
  = OutOfFuel.
Proof.
  unfold find_common_prefix_and_strip_paths. cbn [map walk_paths].
  rewrite walk_up_mixed_roots; [done|]. vm_compute. discriminate.
Qed.


(** * Further properties *)

(** ** The matcher *)

Lemma lstrip_app_spaces a b :
  Forall (λ c, Char.isspace c = true) a → lstrip (a ++ b) = lstrip b.
Proof.
  induction 1 as [|c a Hc _ IH]; simpl; [done|]. by rewrite Hc.
Qed.

Lemma lstrip_nil_spaces a : lstrip a = [] → Forall (λ c, Char.isspace c = true) a.
Proof.
  induction a as [|c a IH]; simpl; [constructor|].
  destruct (Char.isspace c) eqn:Hc; [|done]. intros H. constructor; auto.
Qed.

Lemma lstrip_app_keep a b : lstrip a ≠ [] → lstrip (a ++ b) = lstrip a ++ b.
Proof.
  induction a as [|c a IH]; simpl; [done|].
  destruct (Char.isspace c); [exact IH | done].
Qed.

Lemma lstrip_suffix s : ∃ k, s = k ++ lstrip s.
Proof.
  induction s as [|c s [k IH]]; simpl; [by exists []|].
  destruct (Char.isspace c); [|by exists []].
  exists (c :: k). simpl. by f_equal.
Qed.

Lemma rstrip_prefix u : rev (lstrip (rev u)) `prefix_of` u.
Proof.
  destruct (lstrip_suffix (rev u)) as [k Hk].
  exists (rev k). rewrite <- rev_app_distr, <- Hk. by rewrite rev_involutive.
Qed.

Lemma strip_app_prefix q r : strip q `prefix_of` strip (q ++ r).
Proof.
  unfold strip. destruct (decide (lstrip q = [])) as [Hq|Hq].
  - rewrite Hq. apply prefix_nil.
  - rewrite (lstrip_app_keep q r Hq), rev_app_distr.
    destruct (decide (lstrip (rev r) = [])) as [Hr|Hr].
    + by rewrite (lstrip_app_spaces _ _ (lstrip_nil_spaces _ Hr)).
    + rewrite (lstrip_app_keep _ _ Hr), rev_app_distr, rev_involutive.
      apply prefix_app_r, rstrip_prefix.
Qed.

Lemma sub_spaces_app_prefix in_run a rest :
  sub_spaces in_run a `prefix_of` sub_spaces in_run (a ++ rest).
Proof.
  revert in_run. induction a as [|c a IH]; intros in_run; simpl.
  - apply prefix_nil.
  - destruct (Char.isspace c), in_run; try apply prefix_cons; apply IH.
Qed.

Lemma normalize_app_prefix q r : normalize q `prefix_of` normalize (q ++ r).
Proof.
  unfold normalize. destruct (strip_app_prefix q r) as [k ->].
  apply sub_spaces_app_prefix.
Qed.

Lemma ci_subseq_prefix n m s : ci_subseq (n ++ m) s → ci_subseq n s.
Proof.
  intros H. remember (n ++ m) as q eqn:Hq. revert n Hq.
  induction H as [s | a b q s Hab Hsub IH | b q s Hsub IH]; intros n Hq.
  - symmetry in Hq. apply app_eq_nil in Hq as [-> _]. constructor.
  - destruct n as [|a' n]; [constructor|].
    injection Hq as <- ->. constructor; [done | by apply IH].
  - constructor. by apply IH.
Qed.

Lemma filter_sublist_impl {A} (P Q : A → Prop)
    `{!∀ x, Decision (P x)} `{!∀ x, Decision (Q x)} (l : list A) :
  (∀ x, P x → Q x) → filter P l `sublist_of` filter Q l.
Proof.
  intros HPQ. induction l as [|x l IH]; [done|].
  rewrite !filter_cons. destruct (decide (P x)) as [HP|HP].
  - rewrite decide_True by auto. by constructor.
  - destruct (decide (Q x)); [by constructor | done].
Qed.

(** X1.  Whatever the query holds, brackets, stars and backslashes
    included, the pattern built from it compiles, to one literal for each
    character of the query: the matcher never raises [re.error]. *)
Theorem matcher_never_raises (q : str) (items : list str) :
  Re.compile (join (lit ".*") (map Re.escape q)) = Some (subseq_pattern q) ∧
  is_Some (fuzzy_search q items).
Proof.
  split; [apply compile_query|]. rewrite fuzzy_search_eq. by eexists.
Qed.

(** X2.  Typing on narrows: the result for a query with more characters
    appended is a sublist of the result for the query. *)
Theorem longer_query_narrows (q r : str) (items : list str) :
  ∃ narrow wide,
    fuzzy_search (q ++ r) items = Some narrow ∧
    fuzzy_search q items = Some wide ∧
    narrow `sublist_of` wide.
Proof.
  rewrite !fuzzy_search_eq. eexists _, _. split_and!; [done..|].
  pose proof (normalize_no_LF q) as HLF.
  pose proof (normalize_no_LF (q ++ r)) as HLF'.
  destruct (normalize_app_prefix q r) as [m Hm]. rewrite Hm in *.
  destruct (normalize q) as [|a n].
  - destruct ([] ++ m); [done | apply sublist_filter; apply _].
  - apply filter_sublist_impl. intros item.
    rewrite !Is_true_true.
    rewrite (search_query ((a :: n) ++ m)), (search_query (a :: n)) by done.
    intros (pre & mid & post & -> & Hmid & Hsub).
    exists pre, mid, post. eauto using ci_subseq_prefix.
Qed.







Lemma normalize_surrounded a q b :
  Forall (λ c, Char.isspace c = true) a →
  Forall (λ c, Char.isspace c = true) b →
  normalize (a ++ q ++ b) = normalize q.
Proof.
  intros Ha Hb. unfold normalize, strip. f_equal. f_equal.
  rewrite (lstrip_app_spaces a _ Ha).
  destruct (decide (lstrip q = [])) as [Hq|Hq].
  - rewrite Hq, (lstrip_app_spaces q b (lstrip_nil_spaces q Hq)).
    by rewrite (lstrip_spaces b Hb).
  - rewrite (lstrip_app_keep q b Hq), rev_app_distr.
    apply lstrip_app_spaces. by apply Forall_rev.
Qed.

(** X4.  White space before and after the query is ignored. *)
Theorem surrounding_space_ignored (a q b : str) (items : list str) :
  Forall (λ c, Char.isspace c = true) a →
  Forall (λ c, Char.isspace c = true) b →
  fuzzy_search (a ++ q ++ b) items = fuzzy_search q items.
Proof.
  intros Ha Hb. by rewrite !fuzzy_search_eq, normalize_surrounded.
Qed.

Lemma surrounding_space_ignored_witness :
  Forall (λ c, Char.isspace c = true) (lit "  ") ∧
  Forall (λ c, Char.isspace c = true) ["009"; " "]%char ∧
  fuzzy_search (lit "  " ++ lit "py" ++ ["009"; " "]%char) [lit "Python.gitignore"]
  = fuzzy_search (lit "py") [lit "Python.gitignore"].
Proof.
  split_and!; [by repeat constructor..|].
  apply surrounding_space_ignored; by repeat constructor.
Defined.

(** ** The selection loop *)

Ltac key_facts :=
  unfold Key.ESC, Key.ENTER, Key.KEY_UP, Key.KEY_DOWN, Key.KEY_BACKSPACE in *;
  repeat match goal with
  | H : (_ && _) = true |- _ => apply andb_true_iff in H as [? ?]
  | H : (_ && _) = false |- _ => apply andb_false_iff in H as [?|?]
  | H : (_ =? _)%Z = true |- _ => apply Z.eqb_eq in H
  | H : (_ =? _)%Z = false |- _ => apply Z.eqb_neq in H
  | H : (_ <? _)%Z = true |- _ => apply Z.ltb_lt in H
  | H : (_ <? _)%Z = false |- _ => apply Z.ltb_ge in H
  | H : (_ <=? _)%Z = true |- _ => apply Z.leb_le in H
  | H : (_ <=? _)%Z = false |- _ => apply Z.leb_gt in H
  end.

(** A key other than escape and enter recomputes the view, with an index
    that is not negative when the old one was not, and with the query
    unchanged, cut by one character or grown by one printable character. *)
Lemma step_refresh items st key :
  key ≠ Key.ESC → key ≠ Key.ENTER →
  ∃ i q, step items st key = refresh items i q ∧
         ((0 ≤ current_index st)%Z → (0 ≤ i)%Z) ∧
         (q = query st ∨ q = removelast (query st) ∨
          ∃ c, printable c ∧ q = query st ++ [c]).
Proof.
  intros Hesc Henter. unfold step.
  repeat case_match; key_facts; try lia;
    eexists _, _; (split; [reflexivity|]); (split; [lia|]);
    rewrite ?app_nil_r; auto.
  all: right; right; eexists; split; [|done].
  all: unfold printable, Char.code, Char.chr.
  all: rewrite N_ascii_embedding by lia; lia.
Qed.

Lemma step_active_key items st key st' :
  step items st key = Active st' → key ≠ Key.ESC ∧ key ≠ Key.ENTER.
Proof.
  intros H. split; intros ->; revert H; unfold step; simpl; [done|].
  by destruct (py_index (selected_items st) (current_index st)).
Qed.

Lemma step_printable items st key :
  (32 ≤ key ≤ 126)%Z →
  step items st key
  = refresh items (current_index st) (query st ++ [Char.chr (Z.to_N key)]).
Proof.
  intros Hkey. unfold step. repeat case_match; key_facts; try lia; done.
Qed.

(** The view belongs to the query: recomputing it with any index gives the
    same query and view again. *)
Lemma refresh_again items i q st j :
  refresh items i q = Active st →
  refresh items j (query st)
  = Active {| current_index :=
                Z.min j (Z.of_nat (length (selected_items st)) - 1);
              query := query st;
              selected_items := selected_items st |}.
Proof.
  unfold refresh. destruct (fuzzy_search q items) as [found|] eqn:Hf; [|done].
  intros [= <-]. simpl. by rewrite Hf.
Qed.

(** A state is settled when its view is the one recomputation gives for
    its query, and its index is a position of the view. *)
Lemma run_settled items keys st st' :
  (∃ i q, refresh items i q = Active st) →
  (0 ≤ current_index st)%Z →
  run items st keys = Active st' →
  (∃ i q, refresh items i q = Active st') ∧ (0 ≤ current_index st')%Z.
Proof.
  revert st. induction keys as [|key keys IH]; intros st Hst H0 H; simpl in H.
  - by injection H as <-.
  - destruct (step items st key) as [st1| |] eqn:Hstep; try done.
    destruct (step_active_key _ _ _ _ Hstep) as [Hesc Henter].
    destruct (step_refresh items st key Hesc Henter) as (i & q & Hr & Hi & _).
    rewrite Hr in Hstep. apply (IH st1); [by eauto | | done].
    destruct (refresh_active items i q) as (s & Hs & _ & Hne & Hc & _).
    rewrite Hs in Hstep. injection Hstep as ->.
    destruct (selected_items st1); [done|]. simpl length in *. lia.
Qed.

Lemma initial_settled items :
  items ≠ [] → refresh items 0 [] = Active (initial items).
Proof.
  intros Hne. unfold refresh. rewrite fuzzy_search_eq.
  change (normalize []) with (@nil ascii). unfold initial.
  destruct items; [done|]. simpl. do 2 f_equal. lia.
Qed.

(** Every state the loop reaches after a key, or from a list of items
    that is not empty, is settled. *)
Lemma cli_settled items keys st :
  items ≠ [] ∨ keys ≠ [] →
  cli items keys = Active st →
  (∃ i q, refresh items i q = Active st) ∧ (0 ≤ current_index st)%Z.
Proof.
  unfold cli. intros [Hne|Hne] H.
  - eapply run_settled; [| |exact H]; [|done].
    exists 0%Z, []. by apply initial_settled.
  - destruct keys as [|key keys]; [done|]. simpl in H.
    destruct (step items (initial items) key) as [st1| |] eqn:Hstep; try done.
    destruct (step_active_key _ _ _ _ Hstep) as [Hesc Henter].
    destruct (step_refresh items (initial items) key Hesc Henter)
      as (i & q & Hr & Hi & _).
    rewrite Hr in Hstep. eapply run_settled; [| |exact H]; [by eauto|].
    destruct (refresh_active items i q) as (s & Hs & _ & Hne' & Hc & _).
    rewrite Hs in Hstep. injection Hstep as ->. simpl in Hi.
    destruct (selected_items st1); [done|]. simpl length in *. lia.
Qed.





(** X7.  The view belongs to the query: in every state reached after a
    key, or from a list of items that is not empty, the view is what the
    matcher returns for the query of the state, or the placeholder alone
    when that is empty. *)
Theorem view_matches_query (items : list str) (keys : list Z) (st : state) :
  items ≠ [] ∨ keys ≠ [] →
  cli items keys = Active st →
  ∃ found, fuzzy_search (query st) items = Some found ∧
           selected_items st
           = match found with [] => [placeholder] | _ => found end.
Proof.
  intros Hne H. destruct (cli_settled items keys st Hne H) as [(i & q & Hr) _].
  revert Hr. unfold refresh.
  destruct (fuzzy_search q items) as [found|] eqn:Hf; [|done].
  intros [= <-]. simpl. eauto.
Qed.

Lemma view_matches_query_witness :
  let items := map lit ["Node.gitignore"; "Python.gitignore"; "Go.gitignore"]%string in
  let st := State 0 (lit "py") [lit "Python.gitignore"] in
  (items ≠ [] ∨ typed "py" ≠ []) ∧
  cli items (typed "py") = Active st ∧
  ∃ found, fuzzy_search (query st) items = Some found ∧
           selected_items st
           = match found with [] => [placeholder] | _ => found end.
Proof.
  intros items st.
  assert (cli items (typed "py") = Active st) as H by (vm_compute; reflexivity).
  assert (items ≠ [] ∨ typed "py" ≠ []) as Hne by (by left).
  split; [exact Hne|]. split; [exact H|].
  exact (view_matches_query items (typed "py") st Hne H).
Defined.

Lemma Forall_removelast {A} (P : A → Prop) (l : list A) :
  Forall P l → Forall P (removelast l).
Proof.
  intros H. destruct (removelast_prefix l) as [k Hk].
  rewrite Hk in H. by apply Forall_app in H as [H _].
Qed.

Lemma run_query_printable items keys st st' :
  Forall printable (query st) →
  run items st keys = Active st' →
  Forall printable (query st').
Proof.
  revert st. induction keys as [|key keys IH]; intros st Hq H; simpl in H.
  - by injection H as <-.
  - destruct (step items st key) as [st1| |] eqn:Hstep; try done.
    apply (IH st1); [|done].
    destruct (step_active_key _ _ _ _ Hstep) as [Hesc Henter].
    destruct (step_refresh items st key Hesc Henter) as (i & q & Hr & _ & Hcases).
    destruct (refresh_active items i q) as (s & Hs & Hquery & _).
    rewrite Hr, Hs in Hstep. injection Hstep as ->. rewrite Hquery.
    destruct Hcases as [->|[->|(c & Hc & ->)]];
      [done | by apply Forall_removelast |].
    apply Forall_app. split; [done | constructor; [done | constructor]].
Qed.

(** X8.  The query only ever holds printable ASCII characters, codes 32
    to 126, whatever keys are typed. *)
Theorem query_printable (items : list str) (keys : list Z) (st : state) :
  cli items keys = Active st → Forall printable (query st).
Proof. apply run_query_printable. constructor. Qed.

Lemma query_printable_witness :
  let items := [lit "Go.gitignore"] in
  let keys := [200; 103; 7; 111; 300; 263; -1]%Z in
  cli items keys = Active (State 0 (lit "g") items) ∧
  Forall printable (lit "g").
Proof.
  intros items keys.
  assert (cli items keys = Active (State 0 (lit "g") items)) as H
    by (vm_compute; reflexivity).
  split; [exact H|]. exact (query_printable items keys _ H).
Defined.




(** The index of a settled state is a position of its view. *)
Lemma settled_index items i q st :
  refresh items i q = Active st →
  (current_index st ≤ Z.of_nat (length (selected_items st)) - 1)%Z ∧
  (1 ≤ Z.of_nat (length (selected_items st)))%Z.
Proof.
  intros Hr. destruct (refresh_active items i q) as (s & Hs & _ & Hne & Hc & _).
  rewrite Hs in Hr. injection Hr as ->.
  destruct (selected_items st); [done|]. simpl length in *. lia.
Qed.

(** X10.  The arrow keys move the index by one and stop at the ends of the
    view; they change neither the query nor the view. *)
Theorem arrow_keys_move (items : list str) (keys : list Z) (st : state) :
  items ≠ [] ∨ keys ≠ [] →
  cli items keys = Active st →
  step items st Key.KEY_DOWN
  = Active {| current_index :=
                Z.min (current_index st + 1)
                  (Z.of_nat (length (selected_items st)) - 1);
              query := query st;
              selected_items := selected_items st |} ∧
  step items st Key.KEY_UP
  = Active {| current_index := Z.max (current_index st - 1) 0;
              query := query st;
              selected_items := selected_items st |}.
Proof.
  intros Hne H.
  destruct (cli_settled items keys st Hne H) as [(i & q & Hr) H0].
  pose proof (settled_index _ _ _ _ Hr) as [Hi Hn].
  pose proof (refresh_again items i q st) as Hagain.
  split; unfold step; simpl;
    repeat case_match; key_facts; try lia;
    rewrite ?app_nil_r, (Hagain _ Hr); do 2 f_equal; lia.
Qed.

Lemma arrow_keys_move_witness :
  let items := map lit ["Node.gitignore"; "Python.gitignore"; "Go.gitignore"]%string in
  let st := State 2 [] items in
  let keys := [Key.KEY_DOWN; Key.KEY_DOWN] in
  (items ≠ [] ∨ keys ≠ []) ∧
  cli items keys = Active st ∧
  step items st Key.KEY_DOWN = Active (State 2 [] items) ∧
  step items st Key.KEY_UP = Active (State 1 [] items).
Proof.
  intros items st keys.
  assert (cli items keys = Active st) as H by (vm_compute; reflexivity).
  assert (items ≠ [] ∨ keys ≠ []) as Hne by (by left).
  split; [exact Hne|]. split; [exact H|].
  exact (arrow_keys_move items keys st Hne H).
Defined.

(** X11.  A key that is none of escape, enter, the arrows and backspace
    and types no printable character leaves the state as it is. *)
Theorem other_keys_ignored (items : list str) (keys : list Z) (st : state)
    (key : Z) :
  items ≠ [] ∨ keys ≠ [] →
  cli items keys = Active st →
  key ∉ [Key.ESC; Key.ENTER; Key.KEY_UP; Key.KEY_DOWN; Key.KEY_BACKSPACE] →
  ¬ (32 ≤ key ≤ 126)%Z →
  step items st key = Active st.
Proof.
  intros Hne H Hkey Hprint.
  destruct (cli_settled items keys st Hne H) as [(i & q & Hr) H0].
  pose proof (settled_index _ _ _ _ Hr) as [Hi Hn].
  pose proof (refresh_again items i q st) as Hagain.
  rewrite !not_elem_of_cons in Hkey. destruct Hkey as (? & ? & ? & ? & ? & _).
  unfold step. repeat case_match; key_facts; try lia; try done;
    rewrite ?app_nil_r, (Hagain _ Hr); destruct st; simpl in *;
    do 2 f_equal; lia.
Qed.

Lemma other_keys_ignored_witness :
  let items := [lit "Go.gitignore"] in
  let st := State 0 (lit "g") items in
  (items ≠ [] ∨ typed "g" ≠ []) ∧
  cli items (typed "g") = Active st ∧
  (9%Z ∉ [Key.ESC; Key.ENTER; Key.KEY_UP; Key.KEY_DOWN; Key.KEY_BACKSPACE]) ∧
  ¬ (32 ≤ 9 ≤ 126)%Z ∧
  step items st 9 = Active st.
Proof.
  intros items st.
  assert (cli items (typed "g") = Active st) as H by (vm_compute; reflexivity).
  assert (items ≠ [] ∨ typed "g" ≠ []) as Hne by (by left).
  assert (9%Z ∉ [Key.ESC; Key.ENTER; Key.KEY_UP; Key.KEY_DOWN; Key.KEY_BACKSPACE])
    as Hkey.
  { rewrite !not_elem_of_cons. split_and!; try done. apply not_elem_of_nil. }
  assert (¬ (32 ≤ 9 ≤ 126)%Z) as Hp by lia.
  split; [exact Hne|]. split; [exact H|]. split; [exact Hkey|].
  split; [exact Hp|].
  exact (other_keys_ignored items (typed "g") st 9 Hne H Hkey Hp).
Defined.

(** X12.  Typing a printable character and deleting it again with
    backspace brings back the query and the view; the index is where it
    was or, when the longer query had fewer matches, further up. *)
Theorem type_then_backspace (items : list str) (keys : list Z) (st : state)
    (key : Z) :
  items ≠ [] ∨ keys ≠ [] →
  cli items keys = Active st →
  (32 ≤ key ≤ 126)%Z →
  ∃ st', run items st [key; Key.KEY_BACKSPACE] = Active st' ∧
         query st' = query st ∧
         selected_items st' = selected_items st ∧
         (0 ≤ current_index st' ≤ current_index st)%Z.
Proof.
  intros Hne H Hkey.
  destruct (cli_settled items keys st Hne H) as [(i & q & Hr) H0].
  pose proof (settled_index _ _ _ _ Hr) as [Hi Hn].
  simpl. rewrite (step_printable items st key Hkey).
  destruct (refresh_active items (current_index st)
              (query st ++ [Char.chr (Z.to_N key)]))
    as (st1 & -> & Hq1 & Hne1 & Hc1 & _).
  assert (step items st1 Key.KEY_BACKSPACE
          = refresh items (current_index st1) (query st)) as ->.
  { unfold step. simpl. by rewrite Hq1, removelast_last. }
  rewrite (refresh_again items i q st _ Hr).
  eexists. split; [done|]. simpl. split_and!; try done; try lia.
  destruct (selected_items st1); [done|]. simpl length in *. lia.
Qed.

Lemma type_then_backspace_witness :
  let items := map lit ["Node.gitignore"; "Python.gitignore"; "Go.gitignore"]%string in
  let st := State 2 [] items in
  let keys := [Key.KEY_DOWN; Key.KEY_DOWN] in
  (items ≠ [] ∨ keys ≠ []) ∧
  cli items keys = Active st ∧
  (32 ≤ 121 ≤ 126)%Z ∧
  ∃ st', run items st [121%Z; Key.KEY_BACKSPACE] = Active st' ∧
         query st' = query st ∧
         selected_items st' = selected_items st ∧
         (0 ≤ current_index st' ≤ current_index st)%Z.
Proof.
  intros items st keys.
  assert (cli items keys = Active st) as H by (vm_compute; reflexivity).
  assert (items ≠ [] ∨ keys ≠ []) as Hne by (by left).
  assert (32 ≤ 121 ≤ 126)%Z as Hk by lia.
  split; [exact Hne|]. split; [exact H|]. split; [exact Hk|].
  exact (type_then_backspace items keys st 121 Hne H Hk).
Defined.

(** ** The path reducer and its caller *)

Lemma walk_up_above fuel path cp cp' :
  walk_up fuel path cp = Walked cp' → below cp cp'.
Proof.
  revert cp. induction fuel as [|fuel IH]; intros cp; simpl; [done|].
  destruct (is_relative_to path cp).
  - intros [= <-]. apply below_refl.
  - destruct (to_str (parent cp)); [done|]. intros H.
    eapply below_trans; [apply below_parent | by apply IH].
Qed.

Lemma walk_paths_above fuel paths cp cp' :
  walk_paths fuel paths cp = Walked cp' → below cp cp'.
Proof.
  revert cp. induction paths as [|path paths IH]; intros cp; simpl.
  - intros [= <-]. apply below_refl.
  - destruct (walk_up fuel path cp) as [cp1| |] eqn:Hw; try done.
    intros H. eapply below_trans; [by eapply walk_up_above | by apply IH].
Qed.

(** X13.  The empty prefix is returned for the empty list of paths only:
    with a path in the list the early return of line 104 is never taken. *)
Theorem empty_prefix_only_without_paths (fuel : nat)
    (paths stripped : list PurePath.t) :
  find_common_prefix_and_strip_paths fuel paths = Ok ([], stripped) ↔
  paths = [] ∧ stripped = [].
Proof.
  split.
  - intros H. destruct paths as [|first rest].
    + by injection H as <-.
    + exfalso. by eapply (prefix_never_empty fuel (first :: rest)).
  - by intros [-> ->].
Qed.

Lemma walk_paths_mixed_roots fuel paths cp :
  Exists (λ p, root p ≠ root cp) paths →
  walk_paths fuel paths cp = WalkOutOfFuel.
Proof.
  revert cp. induction paths as [|path paths IH]; intros cp Hex; simpl.
  - by apply Exists_nil in Hex.
  - destruct (decide (root path = root cp)) as [Heq|Hne];
      [|by rewrite walk_up_mixed_roots].
    apply Exists_cons in Hex as [?|Hex]; [done|].
    pose proof (walk_up_not_early fuel path cp).
    destruct (walk_up fuel path cp) as [cp1| |] eqn:Hw; try done.
    apply IH. apply walk_up_above in Hw as [Hroot _].
    eapply Exists_impl; [exact Hex|]. simpl. intros p Hp. congruence.
Qed.

(** X14.  When a path after the first has another root than the first (an
    absolute path among relative ones, or the reverse), the function never
    returns: it runs out of any amount of fuel. *)
Theorem mixed_roots_never_return (fuel : nat) (first : PurePath.t)
    (rest : list PurePath.t) :
  Exists (λ p, root p ≠ root first) rest →
  find_common_prefix_and_strip_paths fuel (first :: rest) = OutOfFuel.
Proof.
  intros Hex. unfold find_common_prefix_and_strip_paths.
  by rewrite walk_paths_mixed_roots.
Qed.

Lemma mixed_roots_never_return_witness :
  let first := of_string "/home/u/gitignore/Go.gitignore" in
  let rest := [of_string "/home/u/gitignore/C.gitignore"; of_string "Nim.gitignore"] in
  Exists (λ p, root p ≠ root first) rest ∧
  find_common_prefix_and_strip_paths 1000 (first :: rest) = OutOfFuel.
Proof.
  intros first rest.
  assert (Exists (λ p, root p ≠ root first) rest) as H.
  { apply Exists_cons_tl, Exists_cons_hd. discriminate. }
  split; [exact H|]. exact (mixed_roots_never_return 1000 first rest H).
Defined.

Lemma split_on_app_nosep sep cur x rest :
  sep ∉ x → split_on sep cur (x ++ rest) = split_on sep (rev x ++ cur) rest.
Proof.
  revert cur. induction x as [|c x IH]; intros cur Hx; [done|].
  apply not_elem_of_cons in Hx as [Hc Hx]. simpl.
  rewrite (proj2 (Ascii.eqb_neq c sep)) by congruence.
  by rewrite IH, <- app_assoc.
Qed.

Lemma split_on_join sep parts :
  parts ≠ [] → Forall (λ x, sep ∉ x) parts →
  split_on sep [] (join [sep] parts) = parts.
Proof.
  intros Hne Hparts. induction Hparts as [|x parts Hx Hparts IH]; [done|].
  destruct parts as [|y parts].
  - simpl. rewrite <- (app_nil_r x), split_on_app_nosep by done.
    simpl. by rewrite !app_nil_r, rev_involutive.
  - change (join [sep] (x :: y :: parts))
      with (x ++ sep :: join [sep] (y :: parts)).
    rewrite split_on_app_nosep by done. simpl.
    rewrite Ascii.eqb_refl, app_nil_r, rev_involutive. f_equal. by apply IH.
Qed.

Lemma not_elem_of_rev {A} (x : A) l : x ∉ l → x ∉ rev l.
Proof. rewrite !list_elem_of_In. intros H Hin. by apply H, in_rev. Qed.

Lemma split_on_no_sep sep cur s :
  sep ∉ cur → Forall (λ x, sep ∉ x) (split_on sep cur s).
Proof.
  revert cur. induction s as [|c s IH]; intros cur Hcur; simpl.
  - constructor; [|constructor]. by apply not_elem_of_rev.
  - destruct (Ascii.eqb c sep) eqn:Hc.
    + constructor; [by apply not_elem_of_rev | apply IH, not_elem_of_nil].
    + apply IH. apply not_elem_of_cons. split; [|done].
      apply Ascii.eqb_neq in Hc. congruence.
Qed.

Lemma filter_all {A} (P : A → Prop) `{!∀ x, Decision (P x)} (l : list A) :
  Forall P l → filter P l = l.
Proof.
  induction 1 as [|x l Hx _ IH]; [done|].
  by rewrite filter_cons_True, IH.
Qed.

(** Every path built from a string is well formed. *)
Lemma parse_well_formed s : well_formed (parse s).
Proof.
  split; simpl.
  - destruct (length s - length (lstrip_sep s)) as [|[|[|n]]];
      rewrite !elem_of_cons; auto.
  - pose proof (split_on_no_sep "/" [] (lstrip_sep s) (not_elem_of_nil _)) as H.
    apply Forall_forall. intros x [[Hne Hdot] Hx]%list_elem_of_filter.
    split_and!; [done | done |].
    by apply (proj1 (Forall_forall _ _) H).
Qed.

Lemma of_string_well_formed (l : list string) :
  Forall well_formed (map of_string l).
Proof.
  induction l as [|x l IH]; simpl; constructor;
    [apply parse_well_formed | exact IH].
Qed.

Lemma below_well_formed p a : well_formed p → below p a → well_formed a.
Proof.
  intros [Hroot Hparts] [Hr [k Hk]]. split; [by rewrite <- Hr|].
  rewrite Hk in Hparts. by apply Forall_app in Hparts as [? _].
Qed.

(** Writing a well-formed path as a string and reading the string again
    gives the path back. *)
Lemma parse_to_str (p : PurePath.t) :
  well_formed p → parse (to_str p) = p.
Proof.
  destruct p as [r ps]. intros [Hroot Hparts]. simpl in *.
  unfold to_str, parse. simpl.
  destruct ps as [|x ps].
  - simpl. rewrite app_nil_r.
    repeat (apply elem_of_cons in Hroot as [->|Hroot]; [done|]).
    by apply elem_of_nil in Hroot.
  - pose proof Hparts as Hall.
    apply Forall_cons in Hparts as [(Hx & _ & Hslash) _].
    destruct x as [|h x]; [done|].
    apply not_elem_of_cons in Hslash as [Hh _].
    assert (Ascii.eqb h "/" = false) as Hhb by (apply Ascii.eqb_neq; congruence).
    assert (∃ t, join ["/"]%char ((h :: x) :: ps) = h :: t) as [t Ht].
    { destruct ps; simpl; eauto. }
    assert (split_on "/" [] (h :: t) = (h :: x) :: ps) as Hsplit.
    { rewrite <- Ht. apply (split_on_join "/"); [done|].
      eapply Forall_impl; [exact Hall|]. by intros y (_ & _ & ?). }
    assert (filter (λ y, y ≠ [] ∧ y ≠ ["."]%char) ((h :: x) :: ps)
            = (h :: x) :: ps) as Hfilter.
    { apply filter_all. eapply Forall_impl; [exact Hall|].
      by intros y (? & ? & _). }
    rewrite Ht.
    assert (∀ n, S n - n = 1)%nat as Hone by (intros; lia).
    assert (∀ n, S (S n) - n = 2)%nat as Htwo by (intros; lia).
    simpl in Hsplit. rewrite Hhb in Hsplit.
    repeat (apply elem_of_cons in Hroot as [->|Hroot];
            [repeat (simpl; rewrite ?Hhb);
             rewrite ?Nat.sub_diag, ?Hone, ?Htwo;
             by rewrite Hsplit, Hfilter|]).
    by apply elem_of_nil in Hroot.
Qed.

(** X15.  [Path(str(p)) == p] for every path [p] built from a string: the
    path is well formed, and reading what it is written as gives it back. *)
Theorem path_str_round_trip (s : str) :
  well_formed (parse s) ∧ parse (to_str (parse s)) = parse s.
Proof.
  pose proof (parse_well_formed s) as H. split; [exact H|].
  by apply parse_to_str.
Qed.

Lemma find_ok_inv fuel first rest prefix stripped :
  find_common_prefix_and_strip_paths fuel (first :: rest) = Ok (prefix, stripped) →
  ∃ cp, prefix = to_str cp ∧ below first cp ∧
        Forall2 (λ p r, relative_to p cp = Some r) (first :: rest) stripped.
Proof.
  unfold find_common_prefix_and_strip_paths.
  destruct (walk_paths fuel rest first) as [cp| |] eqn:Hw; try done.
  - destruct (mapM _ _) as [k|] eqn:Hm; [|done]. intros [= <- <-].
    exists cp. split_and!; [done | by eapply walk_paths_above |].
    by apply mapM_Some_1.
  - by apply walk_paths_not_early in Hw.
Qed.

Lemma relative_rejoin cp p r :
  well_formed cp → well_formed p → relative_to p cp = Some r →
  selected_item_path (to_str cp) (Some (to_str r)) = p.
Proof.
  intros Hcp Hp. unfold relative_to.
  destruct (is_relative_to p cp) eqn:Hrel; [|done]. intros [= <-].
  apply is_relative_to_below in Hrel as [Hroot [k Hk]].
  set (r := {| root := []; parts := drop (length (parts cp)) (parts p) |}).
  assert (well_formed r) as Hr.
  { split; [apply elem_of_cons; by left|]. apply Forall_drop, Hp. }
  unfold selected_item_path. simpl default.
  rewrite (parse_to_str cp Hcp), (parse_to_str r Hr).
  unfold truediv, joinpath. simpl. destruct p as [rp pp]. simpl in *.
  f_equal; [done|]. by rewrite Hk, drop_app_length.
Qed.

Lemma rejoin_all cp paths stripped :
  well_formed cp → Forall well_formed paths →
  Forall2 (λ p r, relative_to p cp = Some r) paths stripped →
  Forall2 (λ p r, selected_item_path (to_str cp) (Some (to_str r)) = p)
    paths stripped.
Proof.
  intros Hcp Hwf HF. induction HF as [|p r paths stripped Hr _ IH];
    [constructor|].
  apply Forall_cons in Hwf as [Hp Hwf].
  constructor; [by apply relative_rejoin | by apply IH].
Qed.

(** X16.  The caller gets every path back: the returned prefix joined with
    a stripped path, as line 178 joins them, is the path the stripped path
    came from. *)
Theorem rejoined_paths (fuel : nat) (paths : list PurePath.t)
    (prefix : str) (stripped : list PurePath.t) :
  Forall well_formed paths →
  find_common_prefix_and_strip_paths fuel paths = Ok (prefix, stripped) →
  Forall2 (λ p r, selected_item_path prefix (Some (to_str r)) = p)
    paths stripped.
Proof.
  intros Hwf H. destruct paths as [|first rest].
  - injection H as <- <-. constructor.
  - destruct (find_ok_inv _ _ _ _ _ H) as (cp & -> & Hcp & HF).
    apply rejoin_all; [|done..].
    eapply below_well_formed; [|exact Hcp]. by apply Forall_cons in Hwf as [? _].
Qed.

Lemma rejoined_paths_witness :
  let paths := map of_string ["/home/u/gitignore/Go.gitignore";
                              "/home/u/gitignore/Global/Vim.gitignore"]%string in
  let stripped := map of_string ["Go.gitignore"; "Global/Vim.gitignore"]%string in
  Forall well_formed paths ∧
  find_common_prefix_and_strip_paths 9 paths
  = Ok (lit "/home/u/gitignore", stripped) ∧
  Forall2 (λ p r, selected_item_path (lit "/home/u/gitignore") (Some (to_str r)) = p)
    paths stripped.
Proof.
  intros paths stripped.
  assert (Forall well_formed paths) as Hwf.
  { apply of_string_well_formed. }
  assert (find_common_prefix_and_strip_paths 9 paths
          = Ok (lit "/home/u/gitignore", stripped)) as H
    by (vm_compute; reflexivity).
  split; [exact Hwf|]. split; [exact H|].
  exact (rejoined_paths 9 paths _ stripped Hwf H).
Defined.

(** X17.  The file handed to the copy is one of the files found: when the
    loop, run on the stripped paths, returns a string other than the
    placeholder, the path line 178 builds from it is one of the paths the
    reducer was given. *)
Theorem selected_path_is_candidate (fuel : nat) (paths : list PurePath.t)
    (prefix : str) (stripped : list PurePath.t) (keys : list Z) (x : str) :
  Forall well_formed paths →
  find_common_prefix_and_strip_paths fuel paths = Ok (prefix, stripped) →
  cli (map to_str stripped) keys = Return (Some x) →
  x ≠ placeholder →
  selected_item_path prefix (Some x) ∈ paths.
Proof.
  intros Hwf Hfind Hcli Hx.
  apply run_returns in Hcli as [Hin|?]; [|done|by left].
  apply list_elem_of_fmap in Hin as (r & -> & Hr).
  destruct paths as [|first rest].
  { injection Hfind as <- <-. by apply elem_of_nil in Hr. }
  destruct (find_ok_inv _ _ _ _ _ Hfind) as (cp & -> & Hcp & HF).
  assert (well_formed cp) as Hwcp.
  { eapply below_well_formed; [|exact Hcp]. by apply Forall_cons in Hwf as [? _]. }
  apply list_elem_of_lookup in Hr as [i Hi].
  destruct (Forall2_lookup_r _ _ _ _ _ (rejoin_all cp _ _ Hwcp Hwf HF) Hi)
    as (p & Hp & <-).
  by eapply list_elem_of_lookup_2.
Qed.

Lemma selected_path_is_candidate_witness :
  let paths := map of_string ["/home/u/gitignore/Go.gitignore";
                              "/home/u/gitignore/Global/Vim.gitignore"]%string in
  let stripped := map of_string ["Go.gitignore"; "Global/Vim.gitignore"]%string in
  let keys := typed "vim" ++ [Key.ENTER] in
  Forall well_formed paths ∧
  find_common_prefix_and_strip_paths 9 paths
  = Ok (lit "/home/u/gitignore", stripped) ∧
  cli (map to_str stripped) keys = Return (Some (lit "Global/Vim.gitignore")) ∧
  lit "Global/Vim.gitignore" ≠ placeholder ∧
  selected_item_path (lit "/home/u/gitignore") (Some (lit "Global/Vim.gitignore"))
  ∈ paths.
Proof.
  intros paths stripped keys.
  assert (Forall well_formed paths) as Hwf.
  { apply of_string_well_formed. }
  assert (find_common_prefix_and_strip_paths 9 paths
          = Ok (lit "/home/u/gitignore", stripped)) as H
    by (vm_compute; reflexivity).
  assert (cli (map to_str stripped) keys
          = Return (Some (lit "Global/Vim.gitignore"))) as Hc
    by (vm_compute; reflexivity).
  assert (lit "Global/Vim.gitignore" ≠ placeholder) as Hx by discriminate.
  split; [exact Hwf|]. split; [exact H|]. split; [exact Hc|]. split; [exact Hx|].
  exact (selected_path_is_candidate 9 paths _ stripped keys _ Hwf H Hc Hx).
Defined.



(** X19.  With one path only, the prefix is that path itself and the one
    candidate shown is ["."], whatever the fuel. *)
Theorem single_path_is_its_own_prefix (fuel : nat) (p : PurePath.t) :
  ∃ r, find_common_prefix_and_strip_paths fuel [p] = Ok (to_str p, [r]) ∧
       to_str r = lit ".".
Proof.
  unfold find_common_prefix_and_strip_paths. simpl walk_paths.
  destruct (relative_to_below p p (below_refl p)) as (r & Hr & Hroot & Hj).
  exists r. simpl. rewrite Hr. simpl. split; [done|].
  destruct r as [rr rp], p as [pr pp]. simpl in *. subst rr.
  injection Hj as Hpp.
  assert (pp ++ rp = pp ++ []) as Heq by (by rewrite app_nil_r).
  by apply app_inv_head in Heq as ->.
Qed.



Lemma step_query items st key st' :
  step items st key = Active st' → query st' = edit_query (query st) key.
Proof.
  unfold step, edit_query.
  repeat case_match; key_facts; try lia; try done;
    match goal with
    | |- refresh ?n ?i ?q = _ → _ =>
        destruct (refresh_active n i q) as (s & Hs & Hq & _);
        rewrite Hs; intros [= <-]; rewrite Hq, ?app_nil_r; done
    end.
Qed.

Lemma run_query items keys st st' :
  run items st keys = Active st' →
  query st' = fold_left edit_query keys (query st).
Proof.
  revert st. induction keys as [|key keys IH]; intros st H; simpl in *.
  - by injection H as <-.
  - destruct (step items st key) as [st1| |] eqn:Hstep; try done.
    rewrite <- (step_query _ _ _ _ Hstep). by apply IH.
Qed.

(** X21.  The query is what was typed, whatever the items are: the keys
    applied in turn to the empty string, backspace cutting the last
    character, printable keys adding theirs, all other keys (the arrows
    among them) changing nothing. *)
Theorem query_is_what_was_typed (items : list str) (keys : list Z)
    (st : state) :
  cli items keys = Active st → query st = fold_left edit_query keys [].
Proof. apply run_query. Qed.

Lemma query_is_what_was_typed_witness :
  let items := [lit "Go.gitignore"] in
  let keys := [200; 103; 7; 111; 300; 263; -1]%Z in
  cli items keys = Active (State 0 (lit "g") items) ∧
  lit "g" = fold_left edit_query keys [].
Proof.
  intros items keys.
  assert (cli items keys = Active (State 0 (lit "g") items)) as H
    by (vm_compute; reflexivity).
  split; [exact H|]. exact (query_is_what_was_typed items keys _ H).
Defined.
